(** * Distance-vector (RIP-style) routing simulation

    Shallow embedding of [src/main.py]: the classes [Node] and [Network]
    and the two convergence loops of the module driver.

    - A Python [dict] is an association list in insertion order with unique
      keys: assigning to a present key keeps its position, assigning to a
      new key appends it.  Iteration order is list order.
    - A cost is an integer or [float('inf')].
    - Objects are owned by the dictionary slot that holds them, so the
      in-place mutation of a node is a write-back into the network. *)

From Stdlib Require Import String List ZArith Lia Bool Arith.
From Stdlib Require Import Ascii DecimalString.
Import ListNotations.
Local Open Scope string_scope.
Local Open Scope list_scope.

(** ** Python dictionaries *)

Section Dict.
Context {V : Type}.

Definition dict := list (string * V).

Definition keys (d : dict) : list string := map fst d.

Fixpoint dict_get (k : string) (d : dict) : option V :=
  match d with
  | [] => None
  | (k', v) :: d' => if String.eqb k k' then Some v else dict_get k d'
  end.

(** [d.get(k, default)] *)
Definition dict_get_or (k : string) (default : V) (d : dict) : V :=
  match dict_get k d with Some v => v | None => default end.

(** [k in d] *)
Definition dict_mem (k : string) (d : dict) : bool :=
  match dict_get k d with Some _ => true | None => false end.

Fixpoint dict_set (k : string) (v : V) (d : dict) : dict :=
  match d with
  | [] => [(k, v)]
  | (k', v') :: d' =>
      if String.eqb k k' then (k, v) :: d' else (k', v') :: dict_set k v d'
  end.

(** [d[k] = f(d[k])] on the object stored under [k]. *)
Definition dict_modify (k : string) (f : V -> V) (d : dict) : dict :=
  match dict_get k d with
  | Some v => dict_set k (f v) d
  | None => d
  end.
End Dict.

Arguments dict V : clear implicits.

(** ** Costs: numbers extended with [float('inf')] *)

Inductive cost : Type :=
| Fin (z : Z)
| Inf.

Definition cost_add (a b : cost) : cost :=
  match a, b with
  | Fin x, Fin y => Fin (x + y)
  | _, _ => Inf
  end.

Definition cost_ltb (a b : cost) : bool :=
  match a, b with
  | Fin x, Fin y => Z.ltb x y
  | Fin _, Inf => true
  | Inf, _ => false
  end.

Definition cost_le (a b : cost) : Prop :=
  match a, b with
  | Fin x, Fin y => (x <= y)%Z
  | _, Inf => True
  | Inf, Fin _ => False
  end.

(** ** Exceptions *)

Inductive exn : Type :=
| KeyError (key : string).

Inductive result (A : Type) : Type :=
| Ok (a : A)
| Raise (e : exn).

Arguments Ok {A} a.
Arguments Raise {A} e.

Definition bind {A B : Type} (r : result A) (f : A -> result B) : result B :=
  match r with
  | Ok a => f a
  | Raise e => Raise e
  end.

Notation "x <- c1 ;; c2" := (bind c1 (fun x => c2))
  (at level 61, c1 at next level, right associativity).
Notation "' pat <- c1 ;; c2" := (bind c1 (fun x => match x with pat => c2 end))
  (at level 61, pat pattern, c1 at next level, right associativity).

Fixpoint foldM {A S : Type} (f : S -> A -> result S) (l : list A) (s : S)
  : result S :=
  match l with
  | [] => Ok s
  | x :: l' => s' <- f s x ;; foldM f l' s'
  end.

(** ** class Node *)

(** A routing-table entry is the tuple [(cost, nextHop)]; [None] is
    Python's [None]. *)
Abbreviation entry := (cost * option string)%type.

Record Node : Type := mkNode {
  name : string;
  routingTable : dict entry;
  neighbors : dict cost
}.

(** [Node.__init__] *)
Definition Node_init (nm : string) : Node :=
  mkNode nm [(nm, (Fin 0%Z, Some nm))] [].

(** The [for] loop of [Node.updateRoutingTable] over the items of
    [neighborTable]; [rt] is [self.routingTable] and [updated] the flag.
    [self.neighbors[neighborName]] is evaluated inside the loop, after the
    [continue] test, and raises [KeyError] when the key is absent.  Each key
    of [neighborTable] is visited once and the loop only assigns to the key
    it visits, so reading the items up front is exact also when
    [neighborTable] is [self.routingTable] itself. *)
Fixpoint updateRoutingTable_loop (self : Node) (neighborName : string)
    (items : list (string * entry)) (rt : dict entry) (updated : bool)
  : result (dict entry * bool) :=
  match items with
  | [] => Ok (rt, updated)
  | (destination, (neighborCost, _)) :: rest =>
      if String.eqb destination (name self)
      then updateRoutingTable_loop self neighborName rest rt updated
      else
        let current_cost := fst (dict_get_or destination (Inf, None) rt) in
        match dict_get neighborName (neighbors self) with
        | None => Raise (KeyError neighborName)
        | Some link =>
            let new_cost := cost_add link neighborCost in
            if cost_ltb new_cost current_cost
            then updateRoutingTable_loop self neighborName rest
                   (dict_set destination (new_cost, Some neighborName) rt) true
            else updateRoutingTable_loop self neighborName rest rt updated
        end
  end.

(** [Node.updateRoutingTable]: the node after the call and the returned
    flag. *)
Definition updateRoutingTable (self : Node) (neighborName : string)
    (neighborTable : dict entry) : result (Node * bool) :=
  '(rt, updated) <-
     updateRoutingTable_loop self neighborName neighborTable
       (routingTable self) false ;;
  Ok (mkNode (name self) rt (neighbors self), updated).

(** [Node.shareTable] returns the table itself, not a copy. *)
Definition shareTable (self : Node) : dict entry := routingTable self.

(** [Node.disconnectNeighbor] *)
Definition disconnectNeighbor (self : Node) (neighborName : string) : Node :=
  if dict_mem neighborName (neighbors self)
  then mkNode (name self)
         (dict_set neighborName (Inf, None) (routingTable self))
         (dict_set neighborName Inf (neighbors self))
  else self.

(** ** class Network *)

Definition Network : Type := dict Node.

(** [Network.__init__] *)
Definition Network_init : Network := [].

(** [Network.addNode] *)
Definition addNode (net : Network) (nm : string) : Network :=
  dict_set nm (Node_init nm) net.

Definition set_neighbor (k : string) (c : cost) (n : Node) : Node :=
  mkNode (name n) (routingTable n) (dict_set k c (neighbors n)).

Definition set_route (k : string) (e : entry) (n : Node) : Node :=
  mkNode (name n) (dict_set k e (routingTable n)) (neighbors n).

(** [Network.connectNodes]: four assignments in sequence, on the objects
    stored under [node1] and [node2] (the same object when the ids are
    equal). *)
Definition connectNodes (net : Network) (node1 node2 : string) (c : cost)
  : Network :=
  if dict_mem node1 net && dict_mem node2 net
  then
    let net1 := dict_modify node1 (set_neighbor node2 c) net in
    let net2 := dict_modify node2 (set_neighbor node1 c) net1 in
    let net3 := dict_modify node1 (set_route node2 (c, Some node2)) net2 in
    dict_modify node2 (set_route node1 (c, Some node1)) net3
  else net.

(** The body of the inner loop of [Network.simulateIteration] for the node
    stored under [nodeName] and one key [neighborName] of its neighbour
    map.  [node] is the live object, and the advertised table is the live
    table of the neighbour. *)
Definition visit (nodeName : string) (st : Network * bool)
    (neighborName : string) : result (Network * bool) :=
  let '(net, updated) := st in
  match dict_get nodeName net, dict_get neighborName net with
  | Some node, Some nb =>
      '(node', u) <- updateRoutingTable node neighborName (shareTable nb) ;;
      Ok (dict_set nodeName node' net, updated || u)
  | _, _ => Ok st
  end.

(** The body of the outer loop: all neighbours of one node. *)
Definition visit_node (st : Network * bool) (nodeName : string)
  : result (Network * bool) :=
  match dict_get nodeName (fst st) with
  | Some node => foldM (visit nodeName) (keys (neighbors node)) st
  | None => Ok st
  end.

(** [Network.simulateIteration]: the network after the round and the
    returned flag. *)
Definition simulateIteration (net : Network) : result (Network * bool) :=
  foldM visit_node (keys net) (net, false).

(** [Network.simulateFailure]: the network after the call and the lines
    printed.  The method has no [raise] and returns [None] on both paths. *)
Definition simulateFailure (net : Network) (node1 node2 : string)
  : result (Network * list string) :=
  if negb (dict_mem node1 net) || negb (dict_mem node2 net)
  then Ok (net, [("Errore: " ++ node1 ++ " o " ++ node2
                    ++ " non esiste nella rete.")%string])
  else
    let net1 := dict_modify node1 (fun n => disconnectNeighbor n node2) net in
    Ok (dict_modify node2 (fun n => disconnectNeighbor n node1) net1, []).

(** ** Module driver *)

(** The convergence loop [for iteration in range(rounds)] of the driver:
    the network when the loop ends, the number of rounds run, and whether
    the loop left through [break] (a round returned [False]). *)
Fixpoint converge_from (rounds : nat) (used : nat) (net : Network)
  : result (Network * nat * bool) :=
  match rounds with
  | O => Ok (net, used, false)
  | S rounds' =>
      '(net', updated) <- simulateIteration net ;;
      if updated then converge_from rounds' (S used) net'
      else Ok (net', S used, true)
  end.

Definition converge (rounds : nat) (net : Network)
  : result (Network * nat * bool) :=
  converge_from rounds 0 net.

(** The topology built by the driver. *)
Definition driver_network : Network :=
  let net := addNode (addNode (addNode Network_init "A") "B") "C" in
  let net := connectNodes net "A" "B" (Fin 1) in
  let net := connectNodes net "B" "C" (Fin 1) in
  connectNodes net "A" "C" (Fin 4).

(** The driver up to the end of the second loop. *)
Definition driver : result (Network * nat * bool) :=
  '(net, _, _) <- converge 100 driver_network ;;
  '(net, _) <- simulateFailure net "A" "B" ;;
  converge 100 net.

(** ** Observations on a network *)

Definition route (net : Network) (n d : string) : option entry :=
  match dict_get n net with
  | Some node => dict_get d (routingTable node)
  | None => None
  end.

Definition route_cost (net : Network) (n d : string) : cost :=
  match route net n d with
  | Some (c, _) => c
  | None => Inf
  end.

(** ** The relaxation rule, entry by entry

    What [updateRoutingTable] is specified to leave under [destination]:
    the candidate through the neighbour when it is strictly cheaper than
    the current cost (a missing entry counting as infinite) and the
    destination is not the node itself, the old entry otherwise. *)
Definition relaxed_entry (self_name neighborName : string) (link : cost)
    (neighborTable rt : dict entry) (destination : string) : option entry :=
  match dict_get destination neighborTable with
  | Some (neighborCost, _) =>
      if negb (String.eqb destination self_name)
         && cost_ltb (cost_add link neighborCost)
              (fst (dict_get_or destination (Inf, None) rt))
      then Some (cost_add link neighborCost, Some neighborName)
      else dict_get destination rt
  | None => dict_get destination rt
  end.

(** ** Rounds *)

(** [k] consecutive calls of [simulateIteration], flags ignored. *)
Fixpoint run_rounds (k : nat) (net : Network) : result Network :=
  match k with
  | O => Ok net
  | S k' => '(net', _) <- simulateIteration net ;; run_rounds k' net'
  end.

(** ** Two reference implementations of a round *)

(** The snapshot (Jacobi) round of the specification: all tables are
    copied before any update, and every update reads the copy. *)
Definition visit_snapshot (snapshot : Network) (nodeName : string)
    (st : Network * bool) (neighborName : string) : result (Network * bool) :=
  let '(net, updated) := st in
  match dict_get nodeName net, dict_get neighborName snapshot with
  | Some node, Some nb =>
      '(node', u) <- updateRoutingTable node neighborName (routingTable nb) ;;
      Ok (dict_set nodeName node' net, updated || u)
  | _, _ => Ok st
  end.

Definition simulateIteration_snapshot (net : Network)
  : result (Network * bool) :=
  foldM (fun st nodeName =>
           match dict_get nodeName (fst st) with
           | Some node =>
               foldM (visit_snapshot net nodeName) (keys (neighbors node)) st
           | None => Ok st
           end)
        (keys net) (net, false).

(** The (node, neighbour) pairs of a round, in iteration order, as they
    can be listed before the round starts. *)
Definition node_schedule (net : Network) (nodeName : string)
  : list (string * string) :=
  match dict_get nodeName net with
  | Some node => map (pair nodeName) (keys (neighbors node))
  | None => []
  end.

Definition schedule (net : Network) : list (string * string) :=
  flat_map (node_schedule net) (keys net).

Definition visit_pair (st : Network * bool) (p : string * string)
  : result (Network * bool) :=
  visit (fst p) st (snd p).

(** The in-place (Gauss-Seidel) round: the scheduled updates run one after
    another, each on the tables left by the ones before it. *)
Definition simulateIteration_sequential (net : Network)
  : result (Network * bool) :=
  foldM visit_pair (schedule net) (net, false).

(** A line A - B - C - D with unit costs. *)
Definition line_network : Network :=
  let net :=
    addNode (addNode (addNode (addNode Network_init "A") "B") "C") "D" in
  let net := connectNodes net "A" "B" (Fin 1) in
  let net := connectNodes net "B" "C" (Fin 1) in
  connectNodes net "C" "D" (Fin 1).

(** ** What a round never touches *)

Definition shape (n : Node) : string * dict cost := (name n, neighbors n).

Definition same_shape (net net' : Network) : Prop :=
  forall k, option_map shape (dict_get k net') = option_map shape (dict_get k net).

Definition table_cost (rt : dict entry) (d : string) : cost :=
  fst (dict_get_or d (Inf, None) rt).

Definition valid_pair (net : Network) (p : string * string) : Prop :=
  forall node,
    dict_get (fst p) net = Some node -> In (snd p) (keys (neighbors node)).

Definition costs_le (net' net : Network) : Prop :=
  forall n d, cost_le (route_cost net' n d) (route_cost net n d).

(** ** Static topologies and shortest paths *)

(** The cost of the link from [n] to [m] as node [n] records it, for two
    nodes of the network. *)
Definition link (net : Network) (n m : string) : option cost :=
  match dict_get n net with
  | Some node => if dict_mem m net then dict_get m (neighbors node) else None
  | None => None
  end.

(** The cost of the walk that leaves [n] and visits the nodes of [p] in
    turn, when every hop is a link of finite cost. *)
Fixpoint walk_cost (net : Network) (n : string) (p : list string) : option Z :=
  match p with
  | [] => Some 0%Z
  | m :: p' =>
      match link net n m, walk_cost net m p' with
      | Some (Fin w), Some z => Some (w + z)%Z
      | _, _ => None
      end
  end.

Definition is_walk (net : Network) (n : string) (p : list string)
    (d : string) (z : Z) : Prop :=
  In n (keys net) /\ last p n = d /\ walk_cost net n p = Some z.

(** [z] is the shortest-path distance from [n] to [d]. *)
Definition shortest (net : Network) (n d : string) (z : Z) : Prop :=
  (exists p, is_walk net n p d z) /\
  (forall p z', is_walk net n p d z' -> (z <= z')%Z).

(** A network as [addNode] and [connectNodes] leave it before the first
    round: unique ids, every node stored under its own name, finite
    non-negative neighbour costs between known nodes, and tables that hold
    the self-entry and the direct entries only. *)
Record well_built (net : Network) : Prop := {
  built_keys : NoDup (keys net);
  built_name : forall n node, dict_get n net = Some node -> name node = n;
  built_known : forall n node m,
      dict_get n net = Some node ->
      In m (keys (neighbors node)) -> In m (keys net);
  built_links : forall n node m c,
      dict_get n net = Some node ->
      dict_get m (neighbors node) = Some c ->
      exists w, c = Fin w /\ (0 <= w)%Z;
  built_tables : forall n node,
      dict_get n net = Some node -> NoDup (keys (routingTable node));
  built_routes : forall n node d,
      dict_get n net = Some node ->
      dict_get d (routingTable node) =
      if String.eqb d n then Some (Fin 0%Z, Some n)
      else option_map (fun c => (c, Some d)) (dict_get d (neighbors node))
}.

(** A connected static topology: such a network in which every node is
    reachable from every node. *)
Record static_topology (net : Network) : Prop := {
  topo_built : well_built net;
  topo_connected : forall n d,
      In n (keys net) -> In d (keys net) -> exists p z, is_walk net n p d z
}.

Definition topo_name net (topo : static_topology net) :=
  built_name net (topo_built net topo).
Definition topo_known net (topo : static_topology net) :=
  built_known net (topo_built net topo).
Definition topo_links net (topo : static_topology net) :=
  built_links net (topo_built net topo).
Definition topo_tables net (topo : static_topology net) :=
  built_tables net (topo_built net topo).
Definition topo_routes net (topo : static_topology net) :=
  built_routes net (topo_built net topo).

(** The network built from a list of node names and a list of links
    [(a, b, w)] by the calls the driver makes. *)
Definition build (names : list string) (links : list (string * string * Z))
  : Network :=
  fold_left (fun net '(a, b, w) => connectNodes net a b (Fin w)) links
    (fold_left addNode names Network_init).

Definition connect_node (m : string) (c : cost) (node : Node) : Node :=
  set_route m (c, Some m) (set_neighbor m c node).

(** The number of rounds the driver loop needs at most on [N] nodes. *)
Definition round_bound (N : nat) : nat := Nat.max (N - 1) 1.

(** Invariants of the rounds on a static topology [net0]. *)
Definition tables_ok (net : Network) : Prop :=
  forall n node, dict_get n net = Some node -> NoDup (keys (routingTable node)).

Definition sound (net0 net : Network) : Prop :=
  forall n d c h,
    route net n d = Some (c, h) ->
    exists z p, c = Fin z /\ is_walk net0 n p d z.

Definition covers (net0 : Network) (r : nat) (net : Network) : Prop :=
  forall n p d z,
    is_walk net0 n p d z -> (length p <= r)%nat ->
    cost_le (route_cost net n d) (Fin z).

Definition optimal (net0 net : Network) : Prop :=
  forall n p d z, is_walk net0 n p d z -> cost_le (route_cost net n d) (Fin z).

Definition round_inv (net0 net : Network) : Prop :=
  same_shape net0 net /\ tables_ok net /\ sound net0 net.

(** ** Sequences of calls *)

Inductive op : Type :=
| AddNode (nm : string)
| ConnectNodes (node1 node2 : string) (c : cost)
| SimulateIteration
| DisconnectNeighbor (nodeName neighborName : string)
| SimulateFailure (node1 node2 : string).

(** One call on the network; [DisconnectNeighbor n m] is
    [network.nodes[n].disconnectNeighbor(m)]. *)
Definition apply_op (net : Network) (o : op) : result Network :=
  match o with
  | AddNode nm => Ok (addNode net nm)
  | ConnectNodes node1 node2 c => Ok (connectNodes net node1 node2 c)
  | SimulateIteration => '(net', _) <- simulateIteration net ;; Ok net'
  | DisconnectNeighbor nodeName neighborName =>
      match dict_get nodeName net with
      | Some node =>
          Ok (dict_set nodeName (disconnectNeighbor node neighborName) net)
      | None => Raise (KeyError nodeName)
      end
  | SimulateFailure node1 node2 =>
      '(net', _) <- simulateFailure net node1 node2 ;; Ok net'
  end.

Definition run_ops (ops : list op) : result Network :=
  foldM apply_op ops Network_init.

Definition no_self_link (o : op) : Prop :=
  match o with
  | ConnectNodes node1 node2 _ => node1 <> node2
  | _ => True
  end.

(** A node stored under [k] that carries its own name, its self-entry and
    no link to itself. *)
Definition self_ok_node (k : string) (node : Node) : Prop :=
  name node = k /\
  dict_get k (routingTable node) = Some (Fin 0%Z, Some k) /\
  dict_get k (neighbors node) = None.

Definition self_ok (net : Network) : Prop :=
  forall k node, dict_get k net = Some node -> self_ok_node k node.

(** What [well_built] asks of the node stored under [k], given the ids
    [ks] of the network. *)
Definition node_built (ks : list string) (k : string) (node : Node) : Prop :=
  name node = k /\
  (forall m, In m (keys (neighbors node)) -> In m ks) /\
  (forall m c, dict_get m (neighbors node) = Some c ->
               exists w, c = Fin w /\ (0 <= w)%Z) /\
  NoDup (keys (routingTable node)) /\
  (forall d,
      dict_get d (routingTable node) =
      if String.eqb d k then Some (Fin 0%Z, Some k)
      else option_map (fun c => (c, Some d)) (dict_get d (neighbors node))).

Definition good_link (l : string * string * Z) : Prop :=
  fst (fst l) <> snd (fst l) /\ (0 <= snd l)%Z.

(** ** Further observations *)

(** [network.nodes[k].neighbors.get(m)] *)
Definition neighbor_cost (net : Network) (k m : string) : option cost :=
  match dict_get k net with
  | Some node => dict_get m (neighbors node)
  | None => None
  end.

(** The node ids are the same and every routing table has kept its keys,
    possibly followed by new ones. *)
Definition grows (net net' : Network) : Prop :=
  keys net' = keys net /\
  forall k node node',
    dict_get k net = Some node -> dict_get k net' = Some node' ->
    exists added,
      keys (routingTable node') = keys (routingTable node) ++ added.

Definition cost_lt (a b : cost) : Prop := cost_ltb a b = true.

(** ** Invariants of reachable networks *)

(** Every next hop of the node is the node itself or one of its
    neighbours. *)
Definition hop_ok_node (node : Node) : Prop :=
  forall d c h,
    dict_get d (routingTable node) = Some (c, Some h) ->
    h = name node \/ In h (keys (neighbors node)).

(** The node stored under [k] carries the name [k], and its destinations
    and neighbours are among the ids [ks]. *)
Definition known_node (ks : list string) (k : string) (node : Node) : Prop :=
  name node = k /\
  incl (keys (routingTable node)) ks /\
  incl (keys (neighbors node)) ks.

(** A cost that is not negative. *)
Definition nn (c : cost) : bool :=
  match c with
  | Fin z => (0 <=? z)%Z
  | Inf => true
  end.

Definition nonneg_node (node : Node) : bool :=
  forallb (fun mc => nn (snd mc)) (neighbors node)
  && forallb (fun de => nn (fst (snd de))) (routingTable node).

(** No neighbour cost and no route cost of the network is negative. *)
Definition nonneg (net : Network) : bool :=
  forallb (fun kn => nonneg_node (snd kn)) net.

Definition nonneg_op (o : op) : Prop :=
  match o with
  | ConnectNodes _ _ c => nn c = true
  | _ => True
  end.

(** The driver's network right after [simulateFailure('A', 'B')]. *)
Definition driver_after_failure : Network :=
  match converge 100 driver_network with
  | Ok (net, _, _) =>
      match simulateFailure net "A" "B" with
      | Ok (net', _) => net'
      | Raise _ => net
      end
  | Raise _ => driver_network
  end.

(** ** A measure that every changing round lowers *)

Definition all_destinations (net : Network) : list string :=
  flat_map (fun kn => keys (routingTable (snd kn))) net.

Definition is_inf (c : cost) : bool :=
  match c with
  | Inf => true
  | Fin _ => false
  end.

Definition finite_part (c : cost) : nat :=
  match c with
  | Fin z => Z.to_nat z
  | Inf => 0
  end.

(** Over the pairs [P] of a node and a destination: how many have no
    finite cost, and the sum of the finite costs. *)
Definition count_inf (P : list (string * string)) (net : Network) : nat :=
  length (filter (fun p => is_inf (route_cost net (fst p) (snd p))) P).

Definition finite_sum (P : list (string * string)) (net : Network) : nat :=
  list_sum (map (fun p => finite_part (route_cost net (fst p) (snd p))) P).

(** Every node id is in [N] and every destination of every table in [D]. *)
Definition within (N D : list string) (net : Network) : Prop :=
  forall k node,
    dict_get k net = Some node ->
    In k N /\ incl (keys (routingTable node)) D.

(** ** Console and log output

    [print] is modelled by the list of the lines printed, a log file by its
    content; the time stamp that [logRoutingTables] reads from the clock
    and the files that exist are parameters.  Ids are byte strings, so
    widths are exact for ASCII ids. *)

Definition nl : string := String (ascii_of_nat 10) EmptyString.

(** [s * n] *)
Fixpoint repeat_string (s : string) (n : nat) : string :=
  match n with
  | O => EmptyString
  | S n' => (s ++ repeat_string s n')%string
  end.

(** [format(s, '<width')]: pad on the right, never truncate. *)
Definition ljust (width : nat) (s : string) : string :=
  (s ++ repeat_string " " (width - String.length s))%string.

(** [str] of a cost: decimal digits for an integer, [inf] for infinity. *)
Definition str_cost (c : cost) : string :=
  match c with
  | Fin z => NilZero.string_of_int (Z.to_int z)
  | Inf => "inf"
  end.

(** ["{:<12} {:<10} {:<10}".format(a, b, c)] *)
Definition format_row (a b c : string) : string :=
  (ljust 12 a ++ " " ++ ljust 10 b ++ " " ++ ljust 10 c)%string.

(** [hop if hop is not None else "N/A"] *)
Definition hop_text (hop : option string) : string :=
  match hop with
  | Some h => h
  | None => "N/A"
  end.

Definition table_row (item : string * entry) : string :=
  format_row (fst item) (str_cost (fst (snd item))) (hop_text (snd (snd item))).

(** The lines [printRoutingTables] prints for one node. *)
Definition print_node (node_name : string) (node : Node) : list string :=
  [("Routing Table for Node " ++ node_name ++ ":")%string;
   format_row "Destination" "Cost" "Next Hop";
   repeat_string "-" 34]
  ++ map table_row (routingTable node)
  ++ [repeat_string "-" 40].

(** [Network.printRoutingTables] *)
Definition printRoutingTables (net : Network) : list string :=
  flat_map (fun kn => print_node (fst kn) (snd kn)) net.

(** [Node.__str__] *)
Definition Node_str (self : Node) : string :=
  ("Node " ++ name self ++ " Routing Table:" ++ nl
   ++ String.concat nl
        (map (fun item : string * entry =>
                fst item ++ ": cost " ++ str_cost (fst (snd item))
                ++ ", next hop "
                ++ match snd (snd item) with Some h => h | None => "None" end)
             (routingTable self)))%string.

(** The heading [logRoutingTables] writes to a new file. *)
Definition log_header : string :=
  ("Log della Simulazione del Protocollo RIP" ++ nl
   ++ repeat_string "=" 40 ++ nl
   ++ "Questo file contiene le tabelle di routing e gli eventi registrati durante la simulazione." ++ nl
   ++ "Ogni voce include un timestamp e una descrizione dell'evento." ++ nl
   ++ repeat_string "=" 40 ++ nl ++ nl)%string.

(** What [logRoutingTables] writes for one node. *)
Definition log_node (node_name : string) (node : Node) : string :=
  (("Routing Table for Node " ++ node_name ++ ":" ++ nl)
   ++ (format_row "Destination" "Cost" "Next Hop" ++ nl)
   ++ (repeat_string "-" 34 ++ nl)
   ++ String.concat ""
        (map (fun item => table_row item ++ nl) (routingTable node))
   ++ (repeat_string "-" 40 ++ nl))%string.

Definition log_tables (net : Network) : string :=
  String.concat "" (map (fun kn => log_node (fst kn) (snd kn)) net).

(** What [logRoutingTables] writes after the heading. *)
Definition log_entry (net : Network) (timestamp event : string) : string :=
  ((nl ++ "[" ++ timestamp ++ "] " ++ event ++ nl)
   ++ (repeat_string "-" 40 ++ nl)
   ++ log_tables net)%string.

(** [Network.logRoutingTables]: the files after the call.  The file is
    opened for appending, and created when it does not exist. *)
Definition logRoutingTables (net : Network) (files : dict string)
    (timestamp filename event : string) : dict string :=
  let file_exists := dict_mem filename files in
  let old := dict_get_or filename EmptyString files in
  let header := if file_exists then EmptyString else log_header in
  dict_set filename (old ++ header ++ log_entry net timestamp event)%string
    files.

(** * Properties *)

(** ** Dictionaries *)

Section DictFacts.
Context {V : Type}.
Implicit Types (d : dict V) (k : string) (v : V).

Lemma dict_get_set_eq k v d : dict_get k (dict_set k v d) = Some v.
Proof.
  induction d as [|[k' v'] d IH]; simpl.
  - now rewrite String.eqb_refl.
  - destruct (String.eqb_spec k k') as [->|Hne]; simpl.
    + now rewrite String.eqb_refl.
    + destruct (String.eqb_spec k k'); [contradiction|exact IH].
Qed.

Lemma dict_get_set_neq k k' v d :
  k' <> k -> dict_get k' (dict_set k v d) = dict_get k' d.
Proof.
  intros Hne. induction d as [|[k0 v0] d IH]; simpl.
  - destruct (String.eqb_spec k' k); [contradiction|reflexivity].
  - destruct (String.eqb_spec k k0) as [->|Hk]; simpl.
    + destruct (String.eqb_spec k' k0); [contradiction|reflexivity].
    + destruct (String.eqb_spec k' k0); [reflexivity|exact IH].
Qed.

Lemma dict_get_set k k' v d :
  dict_get k' (dict_set k v d) =
  if String.eqb k' k then Some v else dict_get k' d.
Proof.
  destruct (String.eqb_spec k' k) as [->|Hne].
  - apply dict_get_set_eq.
  - now apply dict_get_set_neq.
Qed.

Lemma dict_set_same k v d : dict_get k d = Some v -> dict_set k v d = d.
Proof.
  induction d as [|[k' v'] d IH]; simpl; [discriminate|].
  destruct (String.eqb_spec k k') as [->|Hne].
  - now intros [= ->].
  - intros H. now rewrite IH.
Qed.

Lemma dict_get_modify k k' (f : V -> V) d :
  dict_get k' (dict_modify k f d) =
  if String.eqb k' k then option_map f (dict_get k' d) else dict_get k' d.
Proof.
  unfold dict_modify.
  destruct (dict_get k d) as [v|] eqn:Hk.
  - rewrite dict_get_set.
    destruct (String.eqb_spec k' k) as [->|]; [now rewrite Hk|reflexivity].
  - destruct (String.eqb_spec k' k) as [->|]; [now rewrite Hk|reflexivity].
Qed.

Lemma dict_get_In k v d : dict_get k d = Some v -> In (k, v) d.
Proof.
  induction d as [|[k' v'] d IH]; simpl; [discriminate|].
  destruct (String.eqb_spec k k') as [->|Hne].
  - intros [= ->]. now left.
  - intros H. right. now apply IH.
Qed.

Lemma dict_get_None k d : dict_get k d = None <-> ~ In k (keys d).
Proof.
  induction d as [|[k' v'] d IH]; simpl; [tauto|].
  destruct (String.eqb_spec k k') as [->|Hne].
  - split; [discriminate|]. intros H. exfalso. apply H. now left.
  - rewrite IH. split.
    + intros H [Heq|Hin]; [now apply Hne|now apply H].
    + intros H Hin. apply H. now right.
Qed.

Lemma dict_get_keys k d : In k (keys d) -> exists v, dict_get k d = Some v.
Proof.
  intros Hin. destruct (dict_get k d) as [v|] eqn:E; [now exists v|].
  apply dict_get_None in E. contradiction.
Qed.

Lemma dict_get_Some_keys k v d : dict_get k d = Some v -> In k (keys d).
Proof.
  intros H. apply dict_get_In in H. unfold keys.
  change k with (fst (k, v)). now apply in_map.
Qed.

Lemma dict_mem_true k d : dict_mem k d = true <-> In k (keys d).
Proof.
  unfold dict_mem. split.
  - destruct (dict_get k d) eqn:E; [|discriminate].
    intros _. eapply dict_get_Some_keys; eauto.
  - intros H. apply dict_get_keys in H as [v ->]. reflexivity.
Qed.

Lemma keys_dict_set_present k v d :
  In k (keys d) -> keys (dict_set k v d) = keys d.
Proof.
  induction d as [|[k' v'] d IH]; simpl; [tauto|].
  destruct (String.eqb_spec k k') as [->|Hne]; simpl; [reflexivity|].
  intros [Heq|Hin]; [now symmetry in Heq|]. now rewrite IH.
Qed.

Lemma keys_dict_set_absent k v d :
  ~ In k (keys d) -> keys (dict_set k v d) = keys d ++ [k].
Proof.
  induction d as [|[k' v'] d IH]; simpl; [reflexivity|].
  intros Hnot.
  destruct (String.eqb_spec k k') as [->|Hne]; simpl.
  - exfalso. apply Hnot. now left.
  - rewrite IH; [reflexivity|]. intros Hin. apply Hnot. now right.
Qed.

Lemma In_keys_dict_set k k' v d :
  In k' (keys (dict_set k v d)) <-> k' = k \/ In k' (keys d).
Proof.
  destruct (in_dec string_dec k (keys d)) as [Hin|Hnot].
  - rewrite keys_dict_set_present by assumption.
    split; [now right|]. intros [->|H]; assumption.
  - rewrite keys_dict_set_absent by assumption.
    rewrite in_app_iff. simpl. intuition congruence.
Qed.

Lemma NoDup_keys_dict_set k v d :
  NoDup (keys d) -> NoDup (keys (dict_set k v d)).
Proof.
  intros Hnd.
  destruct (in_dec string_dec k (keys d)) as [Hin|Hnot].
  - now rewrite keys_dict_set_present.
  - rewrite keys_dict_set_absent by assumption.
    apply NoDup_app; repeat split; auto.
    + constructor; [simpl; tauto|constructor].
    + intros x Hx [<-|[]]. contradiction.
Qed.
End DictFacts.

(** ** Costs *)

Lemma cost_ltb_irrefl c : cost_ltb c c = false.
Proof. destruct c; simpl; [apply Z.ltb_irrefl|reflexivity]. Qed.

Lemma cost_le_refl c : cost_le c c.
Proof. destruct c; simpl; [lia|exact I]. Qed.

Lemma cost_le_trans a b c : cost_le a b -> cost_le b c -> cost_le a c.
Proof. destruct a, b, c; simpl; try tauto; lia. Qed.

Lemma cost_ltb_le a b : cost_ltb a b = true -> cost_le a b.
Proof. destruct a, b; simpl; try discriminate; try tauto. lia. Qed.

Lemma cost_ltb_false_le a b : cost_ltb a b = false -> cost_le b a.
Proof. destruct a, b; simpl; try discriminate; try tauto. lia. Qed.

Lemma cost_ltb_le_false a b : cost_ltb a b = true -> cost_le b a -> False.
Proof. destruct a, b; simpl; try discriminate; try tauto. lia. Qed.

Lemma cost_le_Fin_inv c z : cost_le c (Fin z) -> exists x, c = Fin x /\ (x <= z)%Z.
Proof. destruct c as [x|]; simpl; [|tauto]. intros H. now exists x. Qed.

(** ** Node.updateRoutingTable *)

Lemma dict_get_or_set_neq {V} k k' (v dflt : V) d :
  k' <> k -> dict_get_or k' dflt (dict_set k v d) = dict_get_or k' dflt d.
Proof. intros H. unfold dict_get_or. now rewrite dict_get_set_neq. Qed.

Lemma relaxed_entry_head self_name nb link d0 nc h rest rt :
  relaxed_entry self_name nb link ((d0, (nc, h)) :: rest) rt d0 =
  if negb (String.eqb d0 self_name)
     && cost_ltb (cost_add link nc) (fst (dict_get_or d0 (Inf, None) rt))
  then Some (cost_add link nc, Some nb)
  else dict_get d0 rt.
Proof. unfold relaxed_entry. simpl. now rewrite String.eqb_refl. Qed.

Lemma relaxed_entry_tail self_name nb link d0 e rest rt d :
  d <> d0 ->
  relaxed_entry self_name nb link ((d0, e) :: rest) rt d =
  relaxed_entry self_name nb link rest rt d.
Proof.
  intros Hne. unfold relaxed_entry. simpl.
  destruct (String.eqb_spec d d0); [contradiction|reflexivity].
Qed.

Lemma relaxed_entry_absent self_name nb link items rt d :
  ~ In d (keys items) ->
  relaxed_entry self_name nb link items rt d = dict_get d rt.
Proof.
  intros H. apply dict_get_None in H. unfold relaxed_entry. now rewrite H.
Qed.

Lemma relaxed_entry_set_other self_name nb link items rt d d0 e :
  d <> d0 ->
  relaxed_entry self_name nb link items (dict_set d0 e rt) d =
  relaxed_entry self_name nb link items rt d.
Proof.
  intros Hne. unfold relaxed_entry.
  now rewrite dict_get_or_set_neq, dict_get_set_neq.
Qed.

Lemma improved_entry_differs (rt : dict entry) d c h :
  cost_ltb c (fst (dict_get_or d (Inf, None) rt)) = true ->
  Some (c, h) <> dict_get d rt.
Proof.
  intros Hlt Heq. unfold dict_get_or in Hlt. rewrite <- Heq in Hlt.
  simpl in Hlt.
  now rewrite cost_ltb_irrefl in Hlt.
Qed.

Lemma updateRoutingTable_loop_spec self nb link items :
  dict_get nb (neighbors self) = Some link ->
  NoDup (keys items) ->
  forall rt u,
  exists rt' u',
    updateRoutingTable_loop self nb items rt u = Ok (rt', u') /\
    (forall d, dict_get d rt' = relaxed_entry (name self) nb link items rt d) /\
    (u' = true <-> u = true \/ exists d, dict_get d rt' <> dict_get d rt).
Proof.
  intros Hlink. induction items as [|[d0 [nc h]] rest IH]; intros Hnd rt u.
  - exists rt, u. simpl. split; [reflexivity|]. split; [reflexivity|]. split.
    + now left.
    + intros [H|[d H]]; [assumption|congruence].
  - simpl in Hnd. inversion Hnd as [|? ? Hnotin Hnd']; subst.
    specialize (IH Hnd'). simpl. rewrite Hlink.
    destruct (String.eqb d0 (name self)) eqn:Hself.
    + destruct (IH rt u) as (rt' & u' & Hrun & Hpt & Hflag).
      exists rt', u'. split; [exact Hrun|]. split; [|exact Hflag].
      intros d. destruct (string_dec d d0) as [->|Hne].
      * rewrite relaxed_entry_head, Hself. simpl.
        rewrite Hpt. now apply relaxed_entry_absent.
      * rewrite relaxed_entry_tail by assumption. apply Hpt.
    + destruct (cost_ltb (cost_add link nc) (fst (dict_get_or d0 (Inf, None) rt)))
        eqn:Hlt.
      * destruct (IH (dict_set d0 (cost_add link nc, Some nb) rt) true)
          as (rt' & u' & Hrun & Hpt & Hflag).
        assert (Hd0 : dict_get d0 rt' = Some (cost_add link nc, Some nb)).
        { rewrite Hpt, relaxed_entry_absent by assumption.
          apply dict_get_set_eq. }
        exists rt', u'. split; [exact Hrun|]. split.
        -- intros d. destruct (string_dec d d0) as [->|Hne].
           ++ rewrite relaxed_entry_head, Hself, Hlt. exact Hd0.
           ++ rewrite relaxed_entry_tail by assumption.
              rewrite Hpt. now apply relaxed_entry_set_other.
        -- split.
           ++ intros _. right. exists d0. rewrite Hd0.
              now apply improved_entry_differs.
           ++ intros _. apply Hflag. now left.
      * destruct (IH rt u) as (rt' & u' & Hrun & Hpt & Hflag).
        exists rt', u'. split; [exact Hrun|]. split; [|exact Hflag].
        intros d. destruct (string_dec d d0) as [->|Hne].
        -- rewrite relaxed_entry_head, Hself, Hlt. simpl.
           rewrite Hpt. now apply relaxed_entry_absent.
        -- rewrite relaxed_entry_tail by assumption. apply Hpt.
Qed.



(** ** Node.disconnectNeighbor *)

(** C7, as stated, at a node that does not know the neighbour: nothing is
    set to infinity. *)
Lemma disconnectNeighbor_unknown_counterexample :
  ~ (forall (self : Node) (neighborName : string),
        dict_get neighborName (neighbors (disconnectNeighbor self neighborName))
        = Some Inf /\
        dict_get neighborName
          (routingTable (disconnectNeighbor self neighborName))
        = Some (Inf, None)).
Proof.
  intros H. destruct (H (Node_init "A") "B") as [H1 _]. discriminate H1.
Qed.

(** C7 (amended).  [disconnectNeighbor] acts only when [neighborName] is a
    key of the neighbour-cost map: then the neighbour cost becomes infinite
    and the route to the neighbour becomes [(inf, None)]; every other
    neighbour cost and every other route, whatever its next hop, is as
    before, and so is the name.  For an id that is not a key of the map
    nothing changes at all. *)
Theorem disconnectNeighbor_spec (self : Node) (neighborName k : string) :
  let self' := disconnectNeighbor self neighborName in
  name self' = name self /\
  dict_get k (neighbors self') =
    (if dict_mem neighborName (neighbors self) && String.eqb k neighborName
     then Some Inf else dict_get k (neighbors self)) /\
  dict_get k (routingTable self') =
    (if dict_mem neighborName (neighbors self) && String.eqb k neighborName
     then Some (Inf, None) else dict_get k (routingTable self)).
Proof.
  unfold disconnectNeighbor.
  destruct (dict_mem neighborName (neighbors self)); simpl.
  - rewrite !dict_get_set. auto.
  - auto.
Qed.

(** ** Network.connectNodes *)

Lemma route_modify net k (f : Node -> Node) n d :
  route (dict_modify k f net) n d =
  if String.eqb n k
  then match dict_get n net with
       | Some node => dict_get d (routingTable (f node))
       | None => None
       end
  else route net n d.
Proof.
  unfold route. rewrite dict_get_modify.
  destruct (String.eqb n k); [|reflexivity].
  now destruct (dict_get n net).
Qed.

Lemma dict_mem_modify {V} k k' (f : V -> V) d :
  dict_mem k' (dict_modify k f d) = dict_mem k' d.
Proof.
  unfold dict_mem. rewrite dict_get_modify.
  destruct (String.eqb k' k); [|reflexivity].
  now destruct (dict_get k' d).
Qed.

Lemma route_set_route_eq net k d e :
  dict_mem k net = true ->
  route (dict_modify k (set_route d e) net) k d = Some e.
Proof.
  intros Hk. rewrite route_modify, String.eqb_refl.
  unfold dict_mem in Hk. destruct (dict_get k net); [|discriminate].
  simpl. apply dict_get_set_eq.
Qed.

Lemma route_set_route_other net k d e n d' :
  n <> k \/ d' <> d ->
  route (dict_modify k (set_route d e) net) n d' = route net n d'.
Proof.
  intros Hne. rewrite route_modify.
  destruct (String.eqb_spec n k) as [->|]; [|reflexivity].
  unfold route. destruct (dict_get k net); [|reflexivity].
  simpl. apply dict_get_set_neq. destruct Hne; congruence.
Qed.

(** C10.  When both ids exist, [connectNodes] leaves in each node's table
    the direct entry [(cost, other)] for the other node, whatever was
    recorded before; with equal ids this is the node's own entry. *)
Theorem connectNodes_overwrites (net : Network) (a b : string) (c : cost) :
  dict_mem a net = true ->
  dict_mem b net = true ->
  route (connectNodes net a b c) a b = Some (c, Some b) /\
  route (connectNodes net a b c) b a = Some (c, Some a) /\
  (a = b -> route (connectNodes net a b c) a a = Some (c, Some a)).
Proof.
  intros Ha Hb. unfold connectNodes. rewrite Ha, Hb. simpl.
  set (net2 := dict_modify b (set_neighbor a c)
                 (dict_modify a (set_neighbor b c) net)).
  assert (Ha2 : dict_mem a net2 = true)
    by (unfold net2; now rewrite !dict_mem_modify).
  assert (Hb2 : dict_mem b net2 = true)
    by (unfold net2; now rewrite !dict_mem_modify).
  assert (Hba : route (dict_modify b (set_route a (c, Some a))
                         (dict_modify a (set_route b (c, Some b)) net2)) b a
                = Some (c, Some a)).
  { apply route_set_route_eq. now rewrite dict_mem_modify. }
  split; [|split].
  - destruct (string_dec a b) as [->|Hne].
    + exact Hba.
    + rewrite route_set_route_other by (left; exact Hne).
      now apply route_set_route_eq.
  - exact Hba.
  - intros ->. exact Hba.
Qed.

Lemma connectNodes_overwrites_witness :
  route (connectNodes (addNode Network_init "A") "A" "A" (Fin 5)) "A" "A"
  = Some (Fin 5, Some "A").
Proof.
  apply (connectNodes_overwrites (addNode Network_init "A") "A" "A" (Fin 5));
    reflexivity.
Defined.

(** ** Network.simulateFailure *)

(** C6, as stated, on the empty network: the call returns normally. *)
Lemma simulateFailure_unknown_counterexample :
  ~ (forall (net : Network) (a b : string),
        dict_mem a net = false \/ dict_mem b net = false ->
        exists e, simulateFailure net a b = Raise e).
Proof.
  intros H. destruct (H Network_init "A" "B") as [e He].
  - now left.
  - discriminate He.
Qed.

(** C6 (amended).  When either id is unknown [simulateFailure] prints one
    line, returns normally and leaves the network as it was.  When both
    exist it prints nothing and the network differs only in that
    [disconnectNeighbor b] was applied to the node stored under [a] and
    [disconnectNeighbor a] to the node stored under [b]; no round is run. *)
Theorem simulateFailure_spec (net : Network) (a b : string) :
  (dict_mem a net = false \/ dict_mem b net = false ->
   simulateFailure net a b =
   Ok (net, [("Errore: " ++ a ++ " o " ++ b ++ " non esiste nella rete.")%string]))
  /\
  (dict_mem a net = true -> dict_mem b net = true ->
   exists net',
     simulateFailure net a b = Ok (net', []) /\
     forall k,
       dict_get k net' =
       option_map
         (fun n =>
            let n1 := if String.eqb k a then disconnectNeighbor n b else n in
            if String.eqb k b then disconnectNeighbor n1 a else n1)
         (dict_get k net)).
Proof.
  unfold simulateFailure. split.
  - intros [H|H]; rewrite H; simpl; [reflexivity|].
    now rewrite orb_true_r.
  - intros Ha Hb. rewrite Ha, Hb. simpl. eexists. split; [reflexivity|].
    intros k. rewrite !dict_get_modify.
    destruct (String.eqb k a), (String.eqb k b);
      destruct (dict_get k net); reflexivity.
Qed.

Lemma simulateFailure_spec_witness :
  simulateFailure Network_init "A" "B" =
  Ok (Network_init, ["Errore: A o B non esiste nella rete."])
  /\
  exists net',
    simulateFailure driver_network "A" "B" = Ok (net', []) /\
    route net' "A" "B" = Some (Inf, None).
Proof.
  split.
  - apply (proj1 (simulateFailure_spec Network_init "A" "B")). now left.
  - destruct (proj2 (simulateFailure_spec driver_network "A" "B")
                eq_refl eq_refl) as (net' & Hrun & Hget).
    exists net'. split; [exact Hrun|].
    unfold route. rewrite Hget. reflexivity.
Defined.

(** ** The driver's topology *)

(** C5, as stated: the last fixpoint would have A reach B at cost 4. *)
Lemma driver_cost_4_counterexample :
  ~ (exists net r c,
        driver = Ok (net, r, c) /\ route net "A" "B" = Some (Fin 4, Some "C")).
Proof.
  intros (net & r & c & Hrun & Hroute).
  vm_compute in Hrun. injection Hrun as <- _ _.
  vm_compute in Hroute. discriminate Hroute.
Qed.

(** C5 (amended).  On the driver's topology (A-B 1, B-C 1, A-C 4) the first
    loop converges within the cap with A to B at cost 1 via B, A to C at
    cost 2 via B, B to C at cost 1 via C and C to A at cost 2 via B.  After
    [simulateFailure('A', 'B')] the second loop converges within the cap
    to a fixpoint in which A reaches B at cost 5 via C. *)
Theorem driver_routes :
  exists net1 r1 net1' net2 r2,
    converge 100 driver_network = Ok (net1, r1, true) /\
    route net1 "A" "B" = Some (Fin 1, Some "B") /\
    route net1 "A" "C" = Some (Fin 2, Some "B") /\
    route net1 "B" "C" = Some (Fin 1, Some "C") /\
    route net1 "C" "A" = Some (Fin 2, Some "B") /\
    simulateFailure net1 "A" "B" = Ok (net1', []) /\
    converge 100 net1' = Ok (net2, r2, true) /\
    simulateIteration net2 = Ok (net2, false) /\
    route net2 "A" "B" = Some (Fin 5, Some "C").
Proof.
  do 5 eexists.
  split; [vm_compute; reflexivity|].
  repeat (split; [vm_compute; reflexivity|]).
  vm_compute; reflexivity.
Qed.

(** ** The result monad *)

Lemma foldM_app {A S} (f : S -> A -> result S) l1 l2 s :
  foldM f (l1 ++ l2) s = (s' <- foldM f l1 s ;; foldM f l2 s').
Proof.
  revert s. induction l1 as [|x l1 IH]; intros s; simpl; [reflexivity|].
  destruct (f s x); simpl; [apply IH|reflexivity].
Qed.

Lemma foldM_map {A B S} (f : S -> B -> result S) (g : A -> B) l s :
  foldM f (map g l) s = foldM (fun s x => f s (g x)) l s.
Proof.
  revert s. induction l as [|x l IH]; intros s; simpl; [reflexivity|].
  destruct (f s (g x)); simpl; [apply IH|reflexivity].
Qed.

(** Partial correctness of a loop from an invariant of its body. *)
Lemma foldM_preserves {A S} (f : S -> A -> result S) (I : S -> Prop) l :
  (forall s x s', In x l -> I s -> f s x = Ok s' -> I s') ->
  forall s s', I s -> foldM f l s = Ok s' -> I s'.
Proof.
  induction l as [|x l IH]; intros Hstep s s' Hs Hrun; simpl in Hrun.
  - now injection Hrun as <-.
  - destruct (f s x) as [s1|e] eqn:Hf; simpl in Hrun; [|discriminate].
    apply IH with (s := s1); auto.
    + intros. eapply Hstep; eauto. now right.
    + eapply Hstep; eauto. now left.
Qed.

(** Termination without exception when the body cannot raise under the
    invariant. *)
Lemma foldM_total {A S} (f : S -> A -> result S) (I : S -> Prop) l :
  (forall s x, In x l -> I s -> exists s', f s x = Ok s' /\ I s') ->
  forall s, I s -> exists s', foldM f l s = Ok s' /\ I s'.
Proof.
  induction l as [|x l IH]; intros Hstep s Hs; simpl.
  - now exists s.
  - destruct (Hstep s x) as (s1 & Hf & Hs1); [now left|assumption|].
    rewrite Hf. simpl. apply IH; auto.
    intros. apply Hstep; auto. now right.
Qed.

(** A loop whose body, besides keeping an invariant, achieves a goal [Q x]
    for the element [x] it handles and never undoes a goal achieved. *)
Lemma foldM_achieves {A S} (f : S -> A -> result S) (I : S -> Prop)
    (Q : A -> S -> Prop) l :
  (forall s x s', In x l -> I s -> f s x = Ok s' ->
                  I s' /\ Q x s' /\ forall y, Q y s -> Q y s') ->
  forall s s', I s -> foldM f l s = Ok s' ->
               I s' /\ forall x, In x l -> Q x s'.
Proof.
  intros Hstep.
  assert (H : forall l' (P : A -> Prop) s s',
             incl l' l -> I s -> (forall y, P y -> Q y s) ->
             foldM f l' s = Ok s' ->
             I s' /\ (forall y, P y -> Q y s') /\
             forall x, In x l' -> Q x s').
  { induction l' as [|x l' IH]; intros P s s' Hincl Hs HP Hrun;
      simpl in Hrun.
    - injection Hrun as <-. repeat split; auto. intros x [].
    - destruct (f s x) as [s1|e] eqn:Hf; simpl in Hrun; [|discriminate].
      destruct (Hstep s x s1) as (Hs1 & Hx & Hkeep);
        [apply Hincl; now left|assumption|assumption|].
      destruct (IH (fun y => P y \/ y = x) s1 s') as (Hs' & HP' & Hl');
        auto.
      + intros y Hy. apply Hincl. now right.
      + intros y [Hy| ->]; auto.
      + repeat split; auto. intros y [<-|Hy]; auto. }
  intros s s' Hs Hrun.
  destruct (H l (fun _ => False) s s') as (Hs' & _ & Hl); auto.
  - apply incl_refl.
  - intros y [].
Qed.

(** ** One update, without assumptions on the tables *)

Lemma table_cost_set rt d0 c h d :
  table_cost (dict_set d0 (c, h) rt) d =
  if String.eqb d d0 then c else table_cost rt d.
Proof.
  unfold table_cost, dict_get_or. rewrite dict_get_set.
  now destruct (String.eqb d d0).
Qed.

Lemma updateRoutingTable_loop_total self nb link :
  dict_get nb (neighbors self) = Some link ->
  forall items rt u,
  exists rt' u', updateRoutingTable_loop self nb items rt u = Ok (rt', u').
Proof.
  intros Hlink. induction items as [|[d0 [nc h]] rest IH]; intros rt u; simpl.
  - now exists rt, u.
  - rewrite Hlink.
    destruct (String.eqb d0 (name self)); [apply IH|].
    destruct (cost_ltb _ _); apply IH.
Qed.

Lemma updateRoutingTable_loop_mono self nb items :
  forall rt u rt' u',
    updateRoutingTable_loop self nb items rt u = Ok (rt', u') ->
    forall d, cost_le (table_cost rt' d) (table_cost rt d).
Proof.
  induction items as [|[d0 [nc h]] rest IH]; intros rt u rt' u' Hrun d;
    simpl in Hrun.
  - injection Hrun as <- _. apply cost_le_refl.
  - destruct (String.eqb d0 (name self)); [eapply IH; eauto|].
    destruct (dict_get nb (neighbors self)) as [link|]; [|discriminate].
    destruct (cost_ltb _ _) eqn:Hlt; [|eapply IH; eauto].
    eapply cost_le_trans; [eapply IH; eauto|].
    rewrite table_cost_set.
    destruct (String.eqb_spec d d0) as [->|]; [|apply cost_le_refl].
    now apply cost_ltb_le.
Qed.

Lemma updateRoutingTable_loop_false self nb items :
  forall rt u rt',
    updateRoutingTable_loop self nb items rt u = Ok (rt', false) ->
    rt' = rt /\ u = false.
Proof.
  induction items as [|[d0 [nc h]] rest IH]; intros rt u rt' Hrun;
    simpl in Hrun.
  - injection Hrun as <- <-. auto.
  - destruct (String.eqb d0 (name self)); [eapply IH; eauto|].
    destruct (dict_get nb (neighbors self)) as [link|]; [|discriminate].
    destruct (cost_ltb _ _); [|eapply IH; eauto].
    apply IH in Hrun as [_ Habs]. discriminate Habs.
Qed.

(** ** One visit of the inner loop *)

Lemma visit_cases n net u m st' :
  visit n (net, u) m = Ok st' ->
  st' = (net, u) \/
  exists node nb rt' uu,
    dict_get n net = Some node /\
    dict_get m net = Some nb /\
    updateRoutingTable_loop node m (routingTable nb) (routingTable node) false
    = Ok (rt', uu) /\
    st' = (dict_set n (mkNode (name node) rt' (neighbors node)) net, u || uu).
Proof.
  unfold visit, updateRoutingTable, shareTable.
  destruct (dict_get n net) as [node|] eqn:Hn;
    [|intros [= <-]; now left].
  destruct (dict_get m net) as [nb|] eqn:Hm;
    [|intros [= <-]; now left].
  destruct (updateRoutingTable_loop _ _ _ _ _) as [[rt' uu]|e] eqn:Hloop;
    simpl; [|discriminate].
  intros [= <-]. right. now exists node, nb, rt', uu.
Qed.

Lemma visit_total n net u m node :
  dict_get n net = Some node ->
  In m (keys (neighbors node)) ->
  exists st', visit n (net, u) m = Ok st'.
Proof.
  intros Hn Hm. apply dict_get_keys in Hm as [link Hlink].
  unfold visit, updateRoutingTable. rewrite Hn.
  destruct (dict_get m net) as [nb|]; [|now eexists].
  destruct (updateRoutingTable_loop_total node m link Hlink
              (shareTable nb) (routingTable node) false) as (rt' & uu & ->).
  simpl. now eexists.
Qed.

Lemma same_shape_refl net : same_shape net net.
Proof. intros k. reflexivity. Qed.

Lemma same_shape_trans net1 net2 net3 :
  same_shape net1 net2 -> same_shape net2 net3 -> same_shape net1 net3.
Proof. intros H12 H23 k. now rewrite H23, H12. Qed.

Lemma same_shape_set net n node node' :
  dict_get n net = Some node ->
  shape node' = shape node ->
  same_shape net (dict_set n node' net).
Proof.
  intros Hn Hshape k. rewrite dict_get_set.
  destruct (String.eqb_spec k n) as [->|]; [|reflexivity].
  rewrite Hn. simpl. now rewrite Hshape.
Qed.

Lemma visit_same_shape n net u m net' u' :
  visit n (net, u) m = Ok (net', u') -> same_shape net net'.
Proof.
  intros H. apply visit_cases in H as [[= -> ->]|H].
  - apply same_shape_refl.
  - destruct H as (node & nb & rt' & uu & Hn & _ & _ & [= -> ->]).
    now apply same_shape_set with (node := node).
Qed.

Lemma route_cost_table net n d :
  route_cost net n d =
  match dict_get n net with
  | Some node => table_cost (routingTable node) d
  | None => Inf
  end.
Proof.
  unfold route_cost, route, table_cost, dict_get_or.
  destruct (dict_get n net) as [node|]; [|reflexivity].
  now destruct (dict_get d (routingTable node)) as [[c h]|].
Qed.

Lemma costs_le_refl net : costs_le net net.
Proof. intros n d. apply cost_le_refl. Qed.

Lemma costs_le_trans net1 net2 net3 :
  costs_le net1 net2 -> costs_le net2 net3 -> costs_le net1 net3.
Proof. intros H12 H23 n d. eapply cost_le_trans; eauto. Qed.

Lemma visit_costs_le n net u m net' u' :
  visit n (net, u) m = Ok (net', u') -> costs_le net' net.
Proof.
  intros H. apply visit_cases in H as [[= -> ->]|H].
  - apply costs_le_refl.
  - destruct H as (node & nb & rt' & uu & Hn & _ & Hloop & [= -> ->]).
    intros n' d. rewrite !route_cost_table, dict_get_set.
    destruct (String.eqb_spec n' n) as [->|]; [|apply cost_le_refl].
    rewrite Hn. simpl. eapply updateRoutingTable_loop_mono; eauto.
Qed.

Lemma visit_false n net u m net' :
  visit n (net, u) m = Ok (net', false) -> net' = net /\ u = false.
Proof.
  intros H. apply visit_cases in H as [[= -> ->]|H]; [auto|].
  destruct H as (node & nb & rt' & uu & Hn & _ & Hloop & [= -> Hu]).
  symmetry in Hu. apply orb_false_iff in Hu as [-> ->].
  apply updateRoutingTable_loop_false in Hloop as [-> _].
  split; [|reflexivity]. apply dict_set_same. now destruct node.
Qed.

(** ** A run of scheduled visits *)

Lemma valid_pair_same_shape net net' p :
  same_shape net net' -> valid_pair net p -> valid_pair net' p.
Proof.
  intros Hshape Hvalid node' Hget. specialize (Hshape (fst p)).
  rewrite Hget in Hshape. simpl in Hshape.
  destruct (dict_get (fst p) net) as [node|] eqn:Hn; [|discriminate].
  injection Hshape as _ Hnb. rewrite Hnb. now apply Hvalid.
Qed.

Lemma run_same_shape l st st' :
  foldM visit_pair l st = Ok st' -> same_shape (fst st) (fst st').
Proof.
  intros Hrun.
  apply (foldM_preserves visit_pair (fun s => same_shape (fst st) (fst s)) l)
    with (s := st); [|apply same_shape_refl|exact Hrun].
  intros [net u] [n m] [net' u'] _ Hs Hvisit. simpl in *.
  eapply same_shape_trans; [exact Hs|]. eapply visit_same_shape; eauto.
Qed.

Lemma run_costs_le l st st' :
  foldM visit_pair l st = Ok st' -> costs_le (fst st') (fst st).
Proof.
  intros Hrun.
  apply (foldM_preserves visit_pair (fun s => costs_le (fst s) (fst st)) l)
    with (s := st); [|apply costs_le_refl|exact Hrun].
  intros [net u] [n m] [net' u'] _ Hs Hvisit. simpl in *.
  eapply costs_le_trans; [|exact Hs]. eapply visit_costs_le; eauto.
Qed.

Lemma run_false l :
  forall net u net',
    foldM visit_pair l (net, u) = Ok (net', false) -> net' = net /\ u = false.
Proof.
  induction l as [|[n m] l IH]; intros net u net' Hrun; cbn [foldM] in Hrun.
  - injection Hrun as <- <-. auto.
  - unfold visit_pair at 1 in Hrun. cbn [fst snd] in Hrun.
    destruct (visit n (net, u) m) as [[net1 u1]|e] eqn:Hvisit;
      cbn [bind] in Hrun; [|discriminate].
    apply IH in Hrun as [-> ->]. now apply visit_false in Hvisit.
Qed.

Lemma run_total l st :
  (forall p, In p l -> valid_pair (fst st) p) ->
  exists st', foldM visit_pair l st = Ok st'.
Proof.
  intros Hvalid.
  destruct (foldM_total visit_pair (fun s => same_shape (fst st) (fst s)) l)
    with (s := st) as (st' & Hrun & _); [|apply same_shape_refl|now exists st'].
  intros [net u] [n m] Hin Hs. simpl in Hs.
  assert (Hv : valid_pair net (n, m))
    by (eapply valid_pair_same_shape; [exact Hs|now apply Hvalid]).
  change (exists s', visit n (net, u) m = Ok s' /\
                     same_shape (fst st) (fst s')).
  destruct (dict_get n net) as [node|] eqn:Hn.
  - destruct (visit_total n net u m node Hn (Hv node Hn)) as ([net' u'] & Hvisit).
    exists (net', u'). split; [exact Hvisit|]. simpl.
    eapply same_shape_trans; [exact Hs|]. eapply visit_same_shape; eauto.
  - exists (net, u). split; [|exact Hs]. unfold visit. now rewrite Hn.
Qed.

Lemma schedule_valid net p : In p (schedule net) -> valid_pair net p.
Proof.
  unfold schedule, node_schedule. rewrite in_flat_map.
  intros (n & _ & Hin) node Hget.
  destruct (dict_get n net) as [node0|] eqn:Hn; [|contradiction].
  apply in_map_iff in Hin as (m & <- & Hm). simpl in Hget.
  rewrite Hn in Hget. now injection Hget as <-.
Qed.

(** The nested loops of [simulateIteration] run the schedule. *)
Lemma visit_node_schedule net st n :
  same_shape net (fst st) ->
  visit_node st n = foldM visit_pair (node_schedule net n) st.
Proof.
  intros Hshape. unfold visit_node, node_schedule.
  specialize (Hshape n).
  destruct (dict_get n (fst st)) as [node'|], (dict_get n net) as [node|];
    try discriminate; [|reflexivity].
  injection Hshape as _ ->. now rewrite foldM_map.
Qed.

Lemma simulateIteration_schedule net :
  simulateIteration net = simulateIteration_sequential net.
Proof.
  unfold simulateIteration, simulateIteration_sequential, schedule.
  assert (H : forall ns st,
             same_shape net (fst st) ->
             foldM visit_node ns st =
             foldM visit_pair (flat_map (node_schedule net) ns) st).
  { induction ns as [|n ns IH]; intros st Hshape; simpl; [reflexivity|].
    rewrite foldM_app, (visit_node_schedule net) by assumption.
    destruct (foldM visit_pair (node_schedule net n) st) as [st1|e] eqn:Hrun;
      simpl; [|reflexivity].
    apply IH. eapply same_shape_trans; [exact Hshape|].
    eapply run_same_shape; eauto. }
  apply H. apply same_shape_refl.
Qed.

Lemma simulateIteration_total net :
  exists net' updated, simulateIteration net = Ok (net', updated).
Proof.
  rewrite simulateIteration_schedule.
  destruct (run_total (schedule net) (net, false)) as ([net' u] & Hrun).
  - intros p Hp. now apply schedule_valid.
  - now exists net', u.
Qed.

Lemma simulateIteration_costs_le net net' updated :
  simulateIteration net = Ok (net', updated) -> costs_le net' net.
Proof.
  rewrite simulateIteration_schedule. intros H.
  now apply run_costs_le in H.
Qed.

Lemma simulateIteration_false net net' :
  simulateIteration net = Ok (net', false) -> net' = net.
Proof.
  rewrite simulateIteration_schedule. intros H.
  now apply run_false in H.
Qed.

(** ** Network.simulateIteration *)



Lemma run_rounds_total k :
  forall net, exists net', run_rounds k net = Ok net'.
Proof.
  induction k as [|k IH]; intros net; simpl.
  - now exists net.
  - destruct (simulateIteration_total net) as (net1 & u & ->). simpl.
    apply IH.
Qed.


(** C9.  When a call of [simulateIteration] returns false the network is
    left exactly as it was, and after any number of further calls the next
    call again returns false on the same network. *)
Theorem simulateIteration_fixpoint (net net' : Network) :
  simulateIteration net = Ok (net', false) ->
  net' = net /\
  forall k,
    run_rounds k net' = Ok net' /\ simulateIteration net' = Ok (net', false).
Proof.
  intros Hrun.
  assert (Heq : net' = net) by now apply simulateIteration_false.
  subst net'. split; [reflexivity|].
  induction k as [|k [IHk _]]; simpl.
  - auto.
  - rewrite Hrun. simpl. auto.
Qed.

Lemma simulateIteration_fixpoint_witness :
  let net := connectNodes (addNode (addNode Network_init "A") "B") "A" "B" (Fin 3) in
  run_rounds 7 net = Ok net /\ simulateIteration net = Ok (net, false).
Proof.
  intros net.
  exact (proj2 (simulateIteration_fixpoint net net eq_refl) 7%nat).
Defined.

(** ** Walks on a static topology *)

Lemma last_cons {A} (a b : A) l : last (a :: l) b = last l a.
Proof.
  revert a b. induction l as [|c l IH]; intros a b; [reflexivity|].
  change (last (a :: c :: l) b) with (last (c :: l) b).
  now rewrite !IH.
Qed.

Section StaticTopology.
Variable net0 : Network.
Hypothesis topo : static_topology net0.

Lemma link_inv n m c :
  link net0 n m = Some c ->
  exists node w,
    dict_get n net0 = Some node /\
    dict_get m (neighbors node) = Some (Fin w) /\
    c = Fin w /\ (0 <= w)%Z /\ In n (keys net0) /\ In m (keys net0).
Proof.
  unfold link. destruct (dict_get n net0) as [node|] eqn:Hn; [|discriminate].
  destruct (dict_mem m net0) eqn:Hm; [|discriminate].
  intros Hc. destruct (topo_links net0 topo n node m c Hn Hc) as (w & -> & Hw).
  exists node, w. repeat split; auto.
  - eapply dict_get_Some_keys; eauto.
  - now apply dict_mem_true.
Qed.

Lemma link_intro n node m c :
  dict_get n net0 = Some node ->
  dict_get m (neighbors node) = Some c ->
  link net0 n m = Some c.
Proof.
  intros Hn Hc. unfold link. rewrite Hn.
  assert (Hm : dict_mem m net0 = true).
  { apply dict_mem_true. eapply topo_known; eauto.
    eapply dict_get_Some_keys; eauto. }
  now rewrite Hm.
Qed.

Lemma walk_cost_cons_inv n m p z :
  walk_cost net0 n (m :: p) = Some z ->
  exists w z',
    link net0 n m = Some (Fin w) /\ walk_cost net0 m p = Some z' /\
    z = (w + z')%Z /\ (0 <= w)%Z /\ In m (keys net0).
Proof.
  simpl. destruct (link net0 n m) as [[w|]|] eqn:Hl; try discriminate.
  destruct (walk_cost net0 m p) as [z'|]; [|discriminate].
  intros [= <-]. exists w, z'.
  destruct (link_inv _ _ _ Hl) as (node & w' & _ & _ & [= <-] & Hw & _ & Hm).
  auto.
Qed.

Lemma walk_cost_nonneg p : forall n z, walk_cost net0 n p = Some z -> (0 <= z)%Z.
Proof.
  induction p as [|m p IH]; intros n z H.
  - injection H as <-. lia.
  - apply walk_cost_cons_inv in H as (w & z' & _ & Hp & -> & Hw & _).
    apply IH in Hp. lia.
Qed.

Lemma walk_cost_nodes p :
  forall n z, walk_cost net0 n p = Some z -> incl p (keys net0).
Proof.
  induction p as [|m p IH]; intros n z H v Hv; [contradiction|].
  apply walk_cost_cons_inv in H as (w & z' & _ & Hp & _ & _ & Hm).
  destruct Hv as [<-|Hv]; [assumption|]. eapply IH; eauto.
Qed.

Lemma walk_cost_suffix l1 :
  forall a b l2 z,
    walk_cost net0 a (l1 ++ b :: l2) = Some z ->
    exists z2,
      walk_cost net0 b l2 = Some z2 /\ (z2 <= z)%Z /\
      last l2 b = last (l1 ++ b :: l2) a.
Proof.
  induction l1 as [|c l1 IH]; intros a b l2 z H.
  - simpl app in *.
    apply walk_cost_cons_inv in H as (w & z' & _ & Hp & -> & Hw & _).
    exists z'. rewrite last_cons. repeat split; auto. lia.
  - change ((c :: l1) ++ b :: l2) with (c :: (l1 ++ b :: l2)) in *.
    apply walk_cost_cons_inv in H as (w & z' & _ & Hp & -> & Hw & _).
    destruct (IH _ _ _ _ Hp) as (z2 & H2 & Hle & Hlast).
    exists z2. rewrite last_cons. repeat split; auto. lia.
Qed.

(** Cycles can be cut out of a walk without raising its cost. *)
Lemma walk_simple p :
  forall n d z,
    is_walk net0 n p d z ->
    exists p' z',
      is_walk net0 n p' d z' /\ (z' <= z)%Z /\ NoDup (n :: p').
Proof.
  induction p as [|m p IH]; intros n d z (Hn & Hlast & Hcost).
  - exists [], z. repeat split; auto; try lia.
    constructor; [simpl; tauto|constructor].
  - apply walk_cost_cons_inv in Hcost as (w & zq & Hl & Hp & -> & Hw & Hm).
    rewrite last_cons in Hlast.
    destruct (IH m d zq) as (q & zq' & (_ & Hlast' & Hq) & Hle & Hnd);
      [now repeat split|].
    destruct (in_dec string_dec n (m :: q)) as [Hin|Hnot].
    + destruct Hin as [->|Hin].
      * exists q, zq'. repeat split; auto. lia.
      * apply in_split in Hin as (l1 & l2 & ->).
        destruct (walk_cost_suffix _ _ _ _ _ Hq) as (z2 & H2 & Hle2 & Hlast2).
        exists l2, z2. repeat split; auto.
        -- congruence.
        -- lia.
        -- inversion Hnd as [|? ? _ Hnd']; subst.
           now apply NoDup_app_remove_l in Hnd'.
    + exists (m :: q), (w + zq')%Z. repeat split; auto.
      * now rewrite last_cons.
      * simpl. now rewrite Hl, Hq.
      * lia.
      * now constructor.
Qed.

Lemma walk_short n p d z :
  is_walk net0 n p d z ->
  exists p' z',
    is_walk net0 n p' d z' /\ (z' <= z)%Z /\
    (length p' <= length net0 - 1)%nat.
Proof.
  intros H. destruct (walk_simple _ _ _ _ H) as (p' & z' & Hw & Hle & Hnd).
  exists p', z'. split; [exact Hw|]. split; [exact Hle|].
  assert (Hincl : incl (n :: p') (keys net0)).
  { destruct Hw as (Hn & _ & Hc). intros v [<-|Hv]; [assumption|].
    eapply walk_cost_nodes; eauto. }
  apply NoDup_incl_length in Hincl; [|assumption].
  unfold keys in Hincl. rewrite length_map in Hincl. simpl in Hincl. lia.
Qed.

Lemma covers_optimal r net :
  (length net0 - 1 <= r)%nat -> covers net0 r net -> optimal net0 net.
Proof.
  intros Hr Hcov n p d z Hwalk.
  destruct (walk_short _ _ _ _ Hwalk) as (p' & z' & Hw' & Hle & Hlen).
  eapply cost_le_trans; [eapply Hcov; eauto; lia|]. simpl. exact Hle.
Qed.

(** The state built by [addNode] and [connectNodes] satisfies the round
    invariant and knows every walk of at most one hop. *)
Lemma initial_inv : round_inv net0 net0.
Proof.
  split; [apply same_shape_refl|]. split; [exact (topo_tables net0 topo)|].
  intros n d c h Hroute. unfold route in Hroute.
  destruct (dict_get n net0) as [node|] eqn:Hn; [|discriminate].
  assert (Hin : In n (keys net0)) by (eapply dict_get_Some_keys; eauto).
  rewrite (topo_routes net0 topo n node d Hn) in Hroute.
  destruct (String.eqb_spec d n) as [->|Hne].
  - injection Hroute as <- _. exists 0%Z, []. now repeat split.
  - destruct (dict_get d (neighbors node)) as [c'|] eqn:Hd; [|discriminate].
    injection Hroute as <- _.
    destruct (topo_links net0 topo n node d c' Hn Hd) as (w & -> & Hw).
    exists (w + 0)%Z, [d]. split; [f_equal; lia|].
    repeat split; auto. simpl.
    now rewrite (link_intro n node d (Fin w) Hn Hd).
Qed.

Lemma initial_covers : covers net0 1 net0.
Proof.
  intros n p d z (Hn & Hlast & Hcost) Hlen.
  rewrite route_cost_table.
  destruct (dict_get_keys _ _ Hn) as [node Hnode]. rewrite Hnode.
  unfold table_cost, dict_get_or.
  rewrite (topo_routes net0 topo n node d Hnode).
  destruct p as [|m [|m' p]]; simpl in Hlen; [| |lia].
  - simpl in Hlast. subst d. injection Hcost as <-.
    rewrite String.eqb_refl. simpl. lia.
  - simpl in Hlast. subst m.
    apply walk_cost_cons_inv in Hcost as (w & z' & Hl & Hz' & -> & Hw & _).
    injection Hz' as <-.
    destruct (String.eqb_spec d n) as [->|Hne]; [simpl; lia|].
    destruct (link_inv _ _ _ Hl) as (node' & w' & Hnode' & Hd & [= <-] & _).
    rewrite Hnode in Hnode'. injection Hnode' as <-.
    rewrite Hd. simpl. lia.
Qed.

End StaticTopology.

(** ** One visit on well-formed tables *)

Lemma updateRoutingTable_loop_nodup self nb items :
  forall rt u rt' u',
    NoDup (keys rt) ->
    updateRoutingTable_loop self nb items rt u = Ok (rt', u') ->
    NoDup (keys rt').
Proof.
  induction items as [|[d0 [nc h]] rest IH]; intros rt u rt' u' Hnd Hrun;
    simpl in Hrun.
  - now injection Hrun as <- _.
  - destruct (String.eqb d0 (name self)); [eapply IH; eauto|].
    destruct (dict_get nb (neighbors self)) as [link|]; [|discriminate].
    destruct (cost_ltb _ _); [|eapply IH; eauto].
    eapply IH; [|exact Hrun]. now apply NoDup_keys_dict_set.
Qed.

Lemma visit_relax net u n m node nb lk :
  tables_ok net ->
  dict_get n net = Some node ->
  dict_get m net = Some nb ->
  dict_get m (neighbors node) = Some lk ->
  exists net' uu,
    visit n (net, u) m = Ok (net', u || uu) /\
    (forall n' d,
        route net' n' d =
        if String.eqb n' n
        then relaxed_entry (name node) m lk (routingTable nb)
               (routingTable node) d
        else route net n' d) /\
    (uu = true <->
     exists d,
       relaxed_entry (name node) m lk (routingTable nb) (routingTable node) d
       <> dict_get d (routingTable node)) /\
    (uu = false -> net' = net) /\
    tables_ok net'.
Proof.
  intros Hok Hn Hm Hlk.
  destruct (updateRoutingTable_loop_spec node m lk (routingTable nb) Hlk
              (Hok m nb Hm) (routingTable node) false)
    as (rt' & uu & Hrun & Hpt & Hflag).
  exists (dict_set n (mkNode (name node) rt' (neighbors node)) net), uu.
  split; [|split; [|split; [|split]]].
  - unfold visit, updateRoutingTable, shareTable. rewrite Hn, Hm, Hrun.
    reflexivity.
  - intros n' d. unfold route. rewrite dict_get_set.
    destruct (String.eqb n' n); [|reflexivity]. simpl. apply Hpt.
  - rewrite Hflag. split.
    + intros [Habs|[d Hd]]; [discriminate|]. exists d. now rewrite <- Hpt.
    + intros [d Hd]. right. exists d. now rewrite Hpt.
  - intros ->. apply updateRoutingTable_loop_false in Hrun as [-> _].
    apply dict_set_same. now destruct node.
  - intros k nodek. rewrite dict_get_set.
    destruct (String.eqb_spec k n) as [->|]; [|apply Hok].
    intros [= <-]. simpl.
    eapply updateRoutingTable_loop_nodup; [|exact Hrun]. eapply Hok; eauto.
Qed.

Lemma schedule_In net n m :
  In (n, m) (schedule net) <->
  exists node, dict_get n net = Some node /\ In m (keys (neighbors node)).
Proof.
  unfold schedule, node_schedule. rewrite in_flat_map. split.
  - intros (n' & _ & Hin).
    destruct (dict_get n' net) as [node|] eqn:Hn'; [|contradiction].
    apply in_map_iff in Hin as (m' & [= <- <-] & Hm). now exists node.
  - intros (node & Hn & Hm). exists n. split.
    + eapply dict_get_Some_keys; eauto.
    + rewrite Hn. now apply in_map.
Qed.

(** ** Rounds on a static topology *)

Section Rounds.
Variable net0 : Network.
Hypothesis topo : static_topology net0.

Lemma shape_node net n node :
  same_shape net0 net ->
  dict_get n net = Some node ->
  exists node0,
    dict_get n net0 = Some node0 /\ name node = n /\
    neighbors node = neighbors node0.
Proof.
  intros Hshape Hn. specialize (Hshape n). rewrite Hn in Hshape.
  destruct (dict_get n net0) as [node0|] eqn:Hn0; [|discriminate].
  injection Hshape as Hname Hnb. exists node0. repeat split; auto.
  rewrite Hname. eapply topo_name; eauto.
Qed.

Lemma shape_node0 net n node0 :
  same_shape net0 net ->
  dict_get n net0 = Some node0 ->
  exists node,
    dict_get n net = Some node /\ name node = n /\
    neighbors node = neighbors node0.
Proof.
  intros Hshape Hn0. pose proof (Hshape n) as Hs. rewrite Hn0 in Hs.
  destruct (dict_get n net) as [node|] eqn:Hn; [|discriminate].
  exists node. split; [reflexivity|].
  destruct (shape_node net n node Hshape Hn) as (node0' & Hn0' & Hname & Hnb).
  rewrite Hn0 in Hn0'. injection Hn0' as <-. auto.
Qed.

Lemma schedule_link net n m :
  same_shape net0 net ->
  In (n, m) (schedule net) ->
  exists w, link net0 n m = Some (Fin w).
Proof.
  intros Hshape Hin. apply schedule_In in Hin as (node & Hn & Hm).
  destruct (shape_node net n node Hshape Hn) as (node0 & Hn0 & _ & Hnb).
  rewrite Hnb in Hm. apply dict_get_keys in Hm as [c Hc].
  destruct (topo_links net0 topo n node0 m c Hn0 Hc) as (w & -> & _).
  exists w. eapply link_intro; eauto.
Qed.

Lemma link_schedule net n m c :
  same_shape net0 net ->
  link net0 n m = Some c ->
  In (n, m) (schedule net).
Proof.
  intros Hshape Hl.
  destruct (link_inv net0 topo _ _ _ Hl) as (node0 & w & Hn0 & Hm & _).
  destruct (shape_node0 net n node0 Hshape Hn0) as (node & Hn & _ & Hnb).
  apply schedule_In. exists node. split; [assumption|].
  rewrite Hnb. eapply dict_get_Some_keys; eauto.
Qed.

Lemma walk_step n m p d w z :
  link net0 n m = Some (Fin w) ->
  is_walk net0 m p d z ->
  is_walk net0 n (m :: p) d (w + z).
Proof.
  intros Hl (_ & Hlast & Hcost).
  destruct (link_inv net0 topo _ _ _ Hl) as (_ & _ & _ & _ & _ & _ & Hn & _).
  repeat split; auto.
  - now rewrite last_cons.
  - simpl. now rewrite Hl, Hcost.
Qed.

(** What one scheduled visit does under the round invariant. *)
Lemma visit_step net u n m w :
  round_inv net0 net ->
  link net0 n m = Some (Fin w) ->
  exists net' uu,
    visit n (net, u) m = Ok (net', u || uu) /\
    round_inv net0 net' /\
    (forall d z,
        d <> n -> cost_le (route_cost net m d) (Fin z) ->
        cost_le (route_cost net' n d) (Fin (w + z))) /\
    (optimal net0 net -> net' = net /\ uu = false).
Proof.
  intros (Hshape & Hok & Hsound) Hl.
  destruct (link_inv net0 topo _ _ _ Hl)
    as (node0 & w' & Hn0 & Hlk & [= <-] & Hw & _ & Hm0).
  destruct (shape_node0 net n node0 Hshape Hn0) as (node & Hn & Hname & Hnb).
  apply dict_get_keys in Hm0 as [nb0 Hm0].
  destruct (shape_node0 net m nb0 Hshape Hm0) as (nb & Hm & _ & _).
  rewrite <- Hnb in Hlk.
  destruct (visit_relax net u n m node nb (Fin w) Hok Hn Hm Hlk)
    as (net' & uu & Hvisit & Hroute & Hflag & Hsame & Hok').
  rewrite Hname in Hroute, Hflag.
  assert (Hnbroute : forall d, route net m d = dict_get d (routingTable nb))
    by (intros d; unfold route; now rewrite Hm).
  assert (Hnroute : forall d, route net n d = dict_get d (routingTable node))
    by (intros d; unfold route; now rewrite Hn).
  exists net', uu. split; [exact Hvisit|]. split; [|split].
  - split; [|split; [exact Hok'|]].
    + eapply same_shape_trans; [exact Hshape|].
      eapply visit_same_shape; eauto.
    + intros n' d c h Hr. rewrite Hroute in Hr.
      destruct (String.eqb_spec n' n) as [->|]; [|eapply Hsound; eauto].
      unfold relaxed_entry in Hr.
      destruct (dict_get d (routingTable nb)) as [[nc hh]|] eqn:Hd;
        [|eapply Hsound; rewrite Hnroute; eauto].
      destruct (negb (String.eqb d n) && _);
        [|eapply Hsound; rewrite Hnroute; eauto].
      injection Hr as <- _.
      destruct (Hsound m d nc hh) as (z & p & -> & Hwalk);
        [now rewrite Hnbroute|].
      exists (w + z)%Z, (m :: p). split; [reflexivity|].
      now apply walk_step.
  - intros d z Hne Hle.
    rewrite route_cost_table, Hm in Hle.
    unfold table_cost, dict_get_or in Hle.
    unfold route_cost. rewrite Hroute, String.eqb_refl.
    unfold relaxed_entry.
    destruct (dict_get d (routingTable nb)) as [[nc hh]|];
      [|simpl in Hle; contradiction].
    simpl in Hle. apply cost_le_Fin_inv in Hle as (x & -> & Hx).
    destruct (String.eqb_spec d n) as [|_]; [contradiction|]. simpl negb.
    cbn [andb cost_add].
    destruct (cost_ltb (Fin (w + x)) (fst (dict_get_or d (Inf, None)
                                             (routingTable node)))) eqn:Hlt.
    + simpl. lia.
    + apply cost_ltb_false_le in Hlt. unfold dict_get_or in Hlt.
      destruct (dict_get d (routingTable node)) as [[c h]|]; simpl in Hlt.
      * eapply cost_le_trans; [exact Hlt|]. simpl. lia.
      * contradiction.
  - intros Hopt.
    assert (Huu : uu = false).
    { destruct uu; [|reflexivity]. exfalso.
      destruct (proj1 Hflag eq_refl) as [d Hd].
      unfold relaxed_entry in Hd.
      destruct (dict_get d (routingTable nb)) as [[nc hh]|] eqn:Hnc;
        [|congruence].
      destruct (String.eqb_spec d n) as [|Hne]; [simpl in Hd; congruence|].
      simpl negb in Hd. cbn [andb] in Hd.
      destruct (cost_ltb _ _) eqn:Hlt; [|congruence].
      destruct (Hsound m d nc hh) as (z & p & -> & Hwalk);
        [now rewrite Hnbroute|].
      pose proof (Hopt n (m :: p) d (w + z)%Z (walk_step _ _ _ _ _ _ Hl Hwalk))
        as Hle.
      rewrite route_cost_table, Hn in Hle.
      eapply cost_ltb_le_false; eauto. }
    split; [now apply Hsame|exact Huu].
Qed.

(** One round extends the known walks by one hop. *)
Lemma round_covers r net net' updated :
  round_inv net0 net ->
  covers net0 r net ->
  simulateIteration net = Ok (net', updated) ->
  round_inv net0 net' /\ covers net0 (S r) net'.
Proof.
  intros Hinv Hcov Hrun. rewrite simulateIteration_schedule in Hrun.
  unfold simulateIteration_sequential in Hrun.
  pose (I := fun st : Network * bool =>
               round_inv net0 (fst st) /\ costs_le (fst st) net).
  pose (Q := fun (x : string * string) (st : Network * bool) =>
               forall w d z,
                 link net0 (fst x) (snd x) = Some (Fin w) ->
                 d <> fst x ->
                 cost_le (route_cost net (snd x) d) (Fin z) ->
                 cost_le (route_cost (fst st) (fst x) d) (Fin (w + z))).
  destruct (foldM_achieves visit_pair I Q (schedule net)) with
    (s := (net, false)) (s' := (net', updated)) as ((Hinv' & Hle') & HQ).
  - intros [net1 u1] [n m] st' Hin (Hinv1 & Hle1) Hvisit.
    destruct (schedule_link net n m (proj1 Hinv) Hin) as [w Hl].
    destruct (visit_step net1 u1 n m w Hinv1 Hl)
      as (net2 & uu & Hv & Hinv2 & Hach & _).
    unfold visit_pair in Hvisit. cbn [fst snd] in Hvisit.
    rewrite Hv in Hvisit. injection Hvisit as <-.
    assert (Hle2 : costs_le net2 net1) by (eapply visit_costs_le; eauto).
    split; [|split].
    + split; [exact Hinv2|]. eapply costs_le_trans; eauto.
    + intros w' d z Hl' Hne Hd. cbn [fst snd] in *.
      rewrite Hl in Hl'. injection Hl' as <-.
      apply Hach; [assumption|].
      eapply cost_le_trans; [apply Hle1|exact Hd].
    + intros [n' m'] Hy w' d z Hl' Hne Hd. cbn [fst snd] in *.
      eapply cost_le_trans; [apply Hle2|]. eapply Hy; eauto.
  - split; [exact Hinv|apply costs_le_refl].
  - exact Hrun.
  - cbn [fst] in *. split; [exact Hinv'|].
    intros n p d z Hwalk Hlen.
    assert (Hself : cost_le (route_cost net' n n) (Fin 0)).
    { eapply cost_le_trans; [apply Hle'|].
      apply (Hcov n [] n 0%Z); [|simpl; lia].
      destruct Hwalk as (Hn & _). now repeat split. }
    destruct p as [|m p].
    + destruct Hwalk as (_ & Hlast & Hcost). simpl in Hlast. subst d.
      injection Hcost as <-. exact Hself.
    + destruct Hwalk as (Hn & Hlast & Hcost).
      pose proof (walk_cost_nonneg net0 topo _ _ _ Hcost) as Hz.
      apply (walk_cost_cons_inv net0 topo) in Hcost
        as (w & z' & Hl & Hp & -> & Hw & Hm).
      rewrite last_cons in Hlast.
      destruct (string_dec d n) as [->|Hne].
      * eapply cost_le_trans; [exact Hself|]. simpl. lia.
      * apply (HQ (n, m)); auto.
        -- eapply link_schedule; [exact (proj1 Hinv)|exact Hl].
        -- apply (Hcov m p d z'); [now repeat split|]. simpl in Hlen. lia.
Qed.

Lemma rounds_cover k :
  forall r net net_k,
    round_inv net0 net ->
    covers net0 r net ->
    run_rounds k net = Ok net_k ->
    round_inv net0 net_k /\ covers net0 (k + r) net_k.
Proof.
  induction k as [|k IH]; intros r net net_k Hinv Hcov Hrun; simpl in Hrun.
  - injection Hrun as <-. auto.
  - destruct (simulateIteration net) as [[net1 u]|e] eqn:Hround;
      simpl in Hrun; [|discriminate].
    destruct (round_covers r net net1 u Hinv Hcov Hround) as (Hinv1 & Hcov1).
    replace (S k + r)%nat with (k + S r)%nat by lia.
    eapply IH; eauto.
Qed.

(** On a state that already holds the shortest distances a round changes
    nothing. *)
Lemma optimal_fixpoint net :
  round_inv net0 net ->
  optimal net0 net ->
  simulateIteration net = Ok (net, false).
Proof.
  intros Hinv Hopt. rewrite simulateIteration_schedule.
  unfold simulateIteration_sequential.
  assert (H : forall l,
             (forall n m, In (n, m) l -> In (n, m) (schedule net)) ->
             foldM visit_pair l (net, false) = Ok (net, false)).
  { induction l as [|[n m] l IH]; intros Hl; [reflexivity|].
    destruct (schedule_link net n m (proj1 Hinv)) as [w Hw];
      [apply Hl; now left|].
    destruct (visit_step net false n m w Hinv Hw)
      as (net' & uu & Hv & _ & _ & Hfix).
    destruct (Hfix Hopt) as [-> ->].
    cbn [foldM]. unfold visit_pair at 1. cbn [fst snd]. rewrite Hv.
    cbn [bind orb]. apply IH. intros n' m' Hin. apply Hl. now right. }
  apply H. auto.
Qed.

Lemma optimal_shortest net n d :
  round_inv net0 net ->
  optimal net0 net ->
  In n (keys net0) -> In d (keys net0) ->
  exists z h, route net n d = Some (Fin z, h) /\ shortest net0 n d z.
Proof.
  intros (_ & _ & Hsound) Hopt Hn Hd.
  destruct (topo_connected net0 topo n d Hn Hd) as (p & z0 & Hwalk).
  pose proof (Hopt _ _ _ _ Hwalk) as Hle. unfold route_cost in Hle.
  destruct (route net n d) as [[c h]|] eqn:Hroute; [|contradiction].
  destruct (Hsound n d c h Hroute) as (z & q & -> & Hq).
  exists z, h. split; [reflexivity|]. split; [now exists q|].
  intros p' z' Hp'. pose proof (Hopt _ _ _ _ Hp') as Hle'.
  unfold route_cost in Hle'. rewrite Hroute in Hle'. exact Hle'.
Qed.

Lemma sound_entry net n d c h :
  round_inv net0 net ->
  optimal net0 net ->
  route net n d = Some (c, h) ->
  exists z, c = Fin z /\ shortest net0 n d z.
Proof.
  intros (_ & _ & Hsound) Hopt Hroute.
  destruct (Hsound n d c h Hroute) as (z & q & -> & Hq).
  exists z. split; [reflexivity|]. split; [now exists q|].
  intros p' z' Hp'. pose proof (Hopt _ _ _ _ Hp') as Hle'.
  unfold route_cost in Hle'. rewrite Hroute in Hle'. exact Hle'.
Qed.

End Rounds.

(** ** The driver loop *)

Lemma run_rounds_fixpoint net k :
  simulateIteration net = Ok (net, false) -> run_rounds k net = Ok net.
Proof.
  intros Hfix. induction k as [|k IH]; simpl; [reflexivity|].
  rewrite Hfix. simpl. exact IH.
Qed.

(** If the state after [j] rounds is a fixpoint, the loop leaves through
    [break] after at most [j + 1] rounds, in that state. *)
Lemma converge_from_fixpoint j :
  forall cap used net net_j,
    run_rounds j net = Ok net_j ->
    simulateIteration net_j = Ok (net_j, false) ->
    (j < cap)%nat ->
    exists k,
      converge_from cap used net = Ok (net_j, (used + k)%nat, true) /\
      (1 <= k <= S j)%nat.
Proof.
  induction j as [|j IH]; intros cap used net net_j Hrun Hfix Hcap;
    (destruct cap as [|cap]; [lia|]); simpl in Hrun; simpl.
  - injection Hrun as <-. rewrite Hfix. simpl. exists 1%nat.
    split; [|lia]. now replace (used + 1)%nat with (S used) by lia.
  - destruct (simulateIteration net) as [[net1 u]|e] eqn:Hround;
      simpl in Hrun; [|discriminate].
    simpl. destruct u.
    + destruct (IH cap (S used) net1 net_j Hrun Hfix) as (k & Hk & Hle);
        [lia|].
      exists (S k). split; [|lia].
      now replace (used + S k)%nat with (S used + k)%nat by lia.
    + pose proof (simulateIteration_false _ _ Hround) as ->.
      rewrite (run_rounds_fixpoint net j Hround) in Hrun.
      injection Hrun as <-. exists 1%nat.
      split; [|lia]. now replace (used + 1)%nat with (S used) by lia.
Qed.

(** ** Networks built by addNode and connectNodes *)

Lemma keys_dict_modify {V} k (f : V -> V) (d : dict V) :
  keys (dict_modify k f d) = keys d.
Proof.
  unfold dict_modify. destruct (dict_get k d) as [v|] eqn:Hk; [|reflexivity].
  apply keys_dict_set_present. eapply dict_get_Some_keys; eauto.
Qed.

Lemma well_built_nodes net :
  well_built net <->
  NoDup (keys net) /\
  forall k node, dict_get k net = Some node -> node_built (keys net) k node.
Proof.
  split.
  - intros [H1 H2 H3 H4 H5 H6]. split; [assumption|].
    intros k node Hk. repeat split; eauto.
  - intros (Hnd & Hnodes). constructor; auto.
    + intros n node Hn. now destruct (Hnodes n node Hn).
    + intros n node m Hn. destruct (Hnodes n node Hn) as (_ & H & _).
      apply H.
    + intros n node m c Hn. destruct (Hnodes n node Hn) as (_ & _ & H & _).
      apply H.
    + intros n node Hn. now destruct (Hnodes n node Hn) as (_ & _ & _ & H & _).
    + intros n node d Hn. destruct (Hnodes n node Hn) as (_ & _ & _ & _ & H).
      apply H.
Qed.

Lemma node_built_incl ks ks' k node :
  incl ks ks' -> node_built ks k node -> node_built ks' k node.
Proof.
  intros Hincl (H1 & H2 & H3 & H4 & H5). repeat split; auto.
Qed.

Lemma node_built_init ks nm : node_built ks nm (Node_init nm).
Proof.
  unfold node_built. simpl. split; [reflexivity|].
  split; [tauto|]. split; [discriminate|]. split.
  - repeat constructor. simpl. tauto.
  - intros d. now destruct (String.eqb d nm).
Qed.

Lemma node_built_connect ks k m w node :
  m <> k -> In m ks -> (0 <= w)%Z ->
  node_built ks k node ->
  node_built ks k (connect_node m (Fin w) node).
Proof.
  intros Hne Hm Hw (H1 & H2 & H3 & H4 & H5). repeat split; simpl; auto.
  - intros m' Hm'. apply In_keys_dict_set in Hm' as [->|Hm']; auto.
  - intros m' c. rewrite dict_get_set.
    destruct (String.eqb m' m); [|apply H3].
    intros [= <-]. now exists w.
  - now apply NoDup_keys_dict_set.
  - intros d. rewrite !dict_get_set, H5.
    destruct (String.eqb_spec d m) as [->|]; [|reflexivity].
    destruct (String.eqb_spec m k); [contradiction|reflexivity].
Qed.

Lemma well_built_empty : well_built Network_init.
Proof.
  apply well_built_nodes. split; [constructor|]. intros k node [=].
Qed.

Lemma well_built_addNode net nm : well_built net -> well_built (addNode net nm).
Proof.
  rewrite !well_built_nodes. intros (Hnd & Hnodes). unfold addNode. split.
  - now apply NoDup_keys_dict_set.
  - intros k node. rewrite dict_get_set.
    destruct (String.eqb_spec k nm) as [->|].
    + intros [= <-]. apply node_built_init.
    + intros Hk. eapply node_built_incl; [|now apply Hnodes].
      intros x Hx. apply In_keys_dict_set. now right.
Qed.

Lemma connectNodes_get net a b c k :
  a <> b -> dict_mem a net = true -> dict_mem b net = true ->
  dict_get k (connectNodes net a b c) =
  option_map (fun node =>
                if String.eqb k a then connect_node b c node
                else if String.eqb k b then connect_node a c node
                     else node)
             (dict_get k net).
Proof.
  intros Hne Ha Hb. unfold connectNodes. rewrite Ha, Hb. simpl.
  rewrite !dict_get_modify.
  destruct (String.eqb_spec k a) as [->|Hka].
  - destruct (String.eqb_spec a b); [contradiction|].
    now destruct (dict_get a net).
  - destruct (String.eqb_spec k b) as [->|Hkb];
      now destruct (dict_get _ net).
Qed.

Lemma keys_connectNodes net a b c : keys (connectNodes net a b c) = keys net.
Proof.
  unfold connectNodes. destruct (dict_mem a net && dict_mem b net);
    [|reflexivity].
  now rewrite !keys_dict_modify.
Qed.

Lemma well_built_connectNodes net a b w :
  a <> b -> (0 <= w)%Z ->
  well_built net -> well_built (connectNodes net a b (Fin w)).
Proof.
  intros Hne Hw Hbuilt.
  destruct (dict_mem a net && dict_mem b net) eqn:Hmem;
    [|unfold connectNodes; now rewrite Hmem].
  apply andb_true_iff in Hmem as [Ha Hb].
  apply well_built_nodes in Hbuilt as (Hnd & Hnodes).
  apply well_built_nodes. rewrite keys_connectNodes. split; [assumption|].
  intros k node. rewrite connectNodes_get by assumption.
  destruct (dict_get k net) as [node0|] eqn:Hk; [|discriminate].
  intros [= <-]. specialize (Hnodes k node0 Hk).
  destruct (String.eqb_spec k a) as [->|Hka].
  - apply node_built_connect; auto. now apply dict_mem_true.
  - destruct (String.eqb_spec k b) as [->|Hkb]; [|assumption].
    apply node_built_connect; auto. now apply dict_mem_true.
Qed.

(** Every network the driver's calls can build from node names and links
    with distinct ends and non-negative costs is well built. *)
Lemma build_well_built names links :
  Forall good_link links -> well_built (build names links).
Proof.
  intros Hlinks. unfold build.
  assert (Hnodes : forall ns net,
             well_built net -> well_built (fold_left addNode ns net)).
  { induction ns as [|nm ns IH]; intros net Hnet; simpl; [assumption|].
    apply IH. now apply well_built_addNode. }
  generalize (Hnodes names Network_init well_built_empty).
  generalize (fold_left addNode names Network_init).
  induction Hlinks as [|[[a b] w] links [Hne Hw] _ IH]; intros net Hnet;
    simpl; [assumption|].
  apply IH. now apply well_built_connectNodes.
Qed.

(** ** Convergence on a static topology *)

Ltac each_member H :=
  simpl in H; repeat (destruct H as [<-|H]); try contradiction.

Lemma single_node_topology : static_topology (addNode Network_init "A").
Proof.
  constructor.
  - apply (build_well_built ["A"] []). constructor.
  - intros n d Hn Hd. each_member Hn. each_member Hd.
    exists [], 0%Z. repeat split. simpl. tauto.
Qed.

Lemma driver_topology : static_topology driver_network.
Proof.
  constructor.
  - apply (build_well_built ["A"; "B"; "C"]
             [("A", "B", 1%Z); ("B", "C", 1%Z); ("A", "C", 4%Z)]).
    repeat constructor; simpl; discriminate || lia.
  - assert (Hn : forall n, In n (keys driver_network) ->
                           is_walk driver_network n [] n 0)
      by (intros n Hn; now repeat split).
    intros n d Hn' Hd. pose proof (Hn n Hn') as H0.
    each_member Hn'; each_member Hd;
      first [ exists [], 0%Z; exact H0
            | eexists [_], _; repeat split;
              first [reflexivity | simpl; tauto] ].
Qed.




(** ** The self-entry *)

Lemma self_ok_modify net k (f : Node -> Node) :
  self_ok net ->
  (forall node, self_ok_node k node -> self_ok_node k (f node)) ->
  self_ok (dict_modify k f net).
Proof.
  intros Hok Hf k' node'. rewrite dict_get_modify.
  destruct (String.eqb_spec k' k) as [->|]; [|apply Hok].
  destruct (dict_get k net) as [node|] eqn:Hk; [|discriminate].
  intros [= <-]. apply Hf. now apply Hok.
Qed.

Lemma self_ok_set_neighbor k m c node :
  m <> k -> self_ok_node k node -> self_ok_node k (set_neighbor m c node).
Proof.
  intros Hne (Hname & Hrt & Hnb). repeat split; auto. simpl.
  rewrite dict_get_set_neq; auto.
Qed.

Lemma self_ok_set_route k m e node :
  m <> k -> self_ok_node k node -> self_ok_node k (set_route m e node).
Proof.
  intros Hne (Hname & Hrt & Hnb). repeat split; auto. simpl.
  rewrite dict_get_set_neq; auto.
Qed.

Lemma self_ok_disconnectNeighbor k m node :
  self_ok_node k node -> self_ok_node k (disconnectNeighbor node m).
Proof.
  intros (Hname & Hrt & Hnb). unfold disconnectNeighbor, dict_mem.
  destruct (dict_get m (neighbors node)) as [c|] eqn:Hm;
    [|now repeat split].
  assert (Hne : k <> m) by congruence.
  repeat split; simpl; auto; rewrite dict_get_set_neq; auto.
Qed.

Lemma self_ok_addNode net nm : self_ok net -> self_ok (addNode net nm).
Proof.
  intros Hok k node. unfold addNode. rewrite dict_get_set.
  destruct (String.eqb_spec k nm) as [->|]; [|apply Hok].
  intros [= <-]. repeat split. simpl. now rewrite String.eqb_refl.
Qed.

Lemma self_ok_connectNodes net a b c :
  a <> b -> self_ok net -> self_ok (connectNodes net a b c).
Proof.
  intros Hne Hok. unfold connectNodes.
  destruct (dict_mem a net && dict_mem b net); [|exact Hok].
  repeat apply self_ok_modify; auto; intros node;
    apply self_ok_set_neighbor || apply self_ok_set_route; congruence.
Qed.

Lemma self_ok_simulateFailure net a b net' out :
  self_ok net -> simulateFailure net a b = Ok (net', out) -> self_ok net'.
Proof.
  intros Hok. unfold simulateFailure.
  destruct (negb (dict_mem a net) || negb (dict_mem b net)).
  - now intros [= <- _].
  - intros [= <- _].
    repeat apply self_ok_modify; auto; intros node;
      apply self_ok_disconnectNeighbor.
Qed.

Lemma updateRoutingTable_loop_self self nb items :
  forall rt u rt' u',
    updateRoutingTable_loop self nb items rt u = Ok (rt', u') ->
    dict_get (name self) rt' = dict_get (name self) rt.
Proof.
  induction items as [|[d0 [nc h]] rest IH]; intros rt u rt' u' Hrun;
    simpl in Hrun.
  - now injection Hrun as <- _.
  - destruct (String.eqb_spec d0 (name self)) as [|Hne]; [eapply IH; eauto|].
    destruct (dict_get nb (neighbors self)) as [link|]; [|discriminate].
    destruct (cost_ltb _ _); [|eapply IH; eauto].
    apply IH in Hrun. rewrite Hrun. apply dict_get_set_neq. congruence.
Qed.

Lemma self_ok_visit n net u m net' u' :
  self_ok net -> visit n (net, u) m = Ok (net', u') -> self_ok net'.
Proof.
  intros Hok H. apply visit_cases in H as [[= -> ->]|H]; [exact Hok|].
  destruct H as (node & nb & rt' & uu & Hn & _ & Hloop & [= -> ->]).
  intros k node'. rewrite dict_get_set.
  destruct (String.eqb_spec k n) as [->|]; [|apply Hok].
  intros [= <-]. destruct (Hok n node Hn) as (Hname & Hrt & Hnb).
  repeat split; auto. simpl.
  apply updateRoutingTable_loop_self in Hloop. rewrite Hname in Hloop.
  now rewrite Hloop.
Qed.

Lemma self_ok_simulateIteration net net' updated :
  self_ok net -> simulateIteration net = Ok (net', updated) -> self_ok net'.
Proof.
  rewrite simulateIteration_schedule. intros Hok Hrun.
  apply (foldM_preserves visit_pair (fun s => self_ok (fst s)) (schedule net))
    with (s := (net, false)) (s' := (net', updated)); auto.
  intros [net1 u1] [n m] [net2 u2] _ H1 Hvisit. simpl in *.
  eapply self_ok_visit; eauto.
Qed.

(** Apart from a link from a node to itself, no sequence of calls touches
    a self-entry. *)
Lemma self_route_without_self_links ops net :
  Forall no_self_link ops ->
  run_ops ops = Ok net ->
  forall n node,
    dict_get n net = Some node ->
    dict_get n (routingTable node) = Some (Fin 0%Z, Some n).
Proof.
  intros Hops Hrun.
  assert (Hok : self_ok net).
  { unfold run_ops in Hrun.
    apply (foldM_preserves apply_op self_ok ops) with (s := Network_init);
      [|intros k node; discriminate|exact Hrun].
    intros s o s' Hin Hs Happ.
    rewrite Forall_forall in Hops. specialize (Hops o Hin).
    destruct o as [nm|a b c| |a b|a b]; simpl in Happ.
    - injection Happ as <-. now apply self_ok_addNode.
    - injection Happ as <-. now apply self_ok_connectNodes.
    - destruct (simulateIteration s) as [[s1 u]|e] eqn:Hround;
        simpl in Happ; [|discriminate].
      injection Happ as <-. eapply self_ok_simulateIteration; eauto.
    - destruct (dict_get a s) as [node|] eqn:Ha; [|discriminate].
      injection Happ as <-. intros k node'. rewrite dict_get_set.
      destruct (String.eqb_spec k a) as [->|]; [|apply Hs].
      intros [= <-]. apply self_ok_disconnectNeighbor. now apply Hs.
    - destruct (simulateFailure s a b) as [[s1 out]|e] eqn:Hfail;
        simpl in Happ; [|discriminate].
      injection Happ as <-. eapply self_ok_simulateFailure; eauto. }
  intros n node Hn. now destruct (Hok n node Hn) as (_ & H & _).
Qed.

(** C2 fails on a link from a node to itself: after [addNode('A')] and
    [connectNodes('A', 'A', 5)] the self-entry of A is [(5, 'A')], not
    [(0, 'A')]. *)
Theorem self_route_overwritten :
  exists net,
    run_ops [AddNode "A"; ConnectNodes "A" "A" (Fin 5)] = Ok net /\
    route net "A" "A" = Some (Fin 5, Some "A").
Proof. eexists. split; reflexivity. Qed.

(** * Further properties of the code *)

(** ** More on dictionaries *)

Lemma dict_set_set {V} k (v v' : V) (d : dict V) :
  dict_set k v (dict_set k v' d) = dict_set k v d.
Proof.
  induction d as [|[k0 v0] d IH]; simpl.
  - now rewrite String.eqb_refl.
  - destruct (String.eqb_spec k k0) as [->|Hne]; simpl.
    + now rewrite String.eqb_refl.
    + destruct (String.eqb_spec k k0); [contradiction|]. now rewrite IH.
Qed.

Lemma dict_set_comm {V} k1 k2 (v1 v2 : V) (d : dict V) :
  In k1 (keys d) -> In k2 (keys d) -> k1 <> k2 ->
  dict_set k1 v1 (dict_set k2 v2 d) = dict_set k2 v2 (dict_set k1 v1 d).
Proof.
  intros H1 H2 Hne. induction d as [|[k0 v0] d IH]; simpl in *; [tauto|].
  destruct (String.eqb_spec k2 k0) as [->|Hk2];
    destruct (String.eqb_spec k1 k0) as [->|Hk1]; simpl.
  - contradiction.
  - rewrite String.eqb_refl.
    destruct (String.eqb_spec k1 k0); [contradiction|reflexivity].
  - rewrite String.eqb_refl.
    destruct (String.eqb_spec k2 k0); [contradiction|reflexivity].
  - destruct (String.eqb_spec k1 k0); [contradiction|].
    destruct (String.eqb_spec k2 k0); [contradiction|].
    rewrite IH; [reflexivity| |]; intuition congruence.
Qed.

Lemma dict_modify_modify {V} k (f g : V -> V) (d : dict V) :
  dict_modify k f (dict_modify k g d) = dict_modify k (fun v => f (g v)) d.
Proof.
  unfold dict_modify at 1. rewrite dict_get_modify, String.eqb_refl.
  unfold dict_modify. destruct (dict_get k d) as [v|]; simpl; [|reflexivity].
  apply dict_set_set.
Qed.

Lemma dict_modify_comm {V} k1 k2 (f g : V -> V) (d : dict V) :
  k1 <> k2 ->
  dict_modify k1 f (dict_modify k2 g d) = dict_modify k2 g (dict_modify k1 f d).
Proof.
  intros Hne. unfold dict_modify at 1 3. rewrite !dict_get_modify.
  destruct (String.eqb_spec k1 k2); [contradiction|].
  destruct (String.eqb_spec k2 k1); [congruence|].
  unfold dict_modify.
  destruct (dict_get k1 d) as [v1|] eqn:H1, (dict_get k2 d) as [v2|] eqn:H2;
    try reflexivity.
  apply dict_set_comm; auto; eapply dict_get_Some_keys; eauto.
Qed.

Lemma dict_modify_ext {V} k (f g : V -> V) (d : dict V) :
  (forall v, dict_get k d = Some v -> f v = g v) ->
  dict_modify k f d = dict_modify k g d.
Proof.
  intros H. unfold dict_modify. destruct (dict_get k d) as [v|]; [|reflexivity].
  now rewrite H.
Qed.

Lemma node_eta (n : Node) :
  mkNode (name n) (routingTable n) (neighbors n) = n.
Proof. now destruct n. Qed.

(** ** Node.updateRoutingTable: edges *)

Lemma updateRoutingTable_loop_unknown self nb items :
  dict_get nb (neighbors self) = None ->
  forall rt u,
    updateRoutingTable_loop self nb items rt u =
    if existsb (fun item => negb (String.eqb (fst item) (name self))) items
    then Raise (KeyError nb)
    else Ok (rt, u).
Proof.
  intros Hnb. induction items as [|[d0 [nc h]] rest IH]; intros rt u; simpl;
    [reflexivity|].
  rewrite Hnb. destruct (String.eqb d0 (name self)); simpl; [apply IH|].
  reflexivity.
Qed.

Lemma updateRoutingTable_unknown self nb tbl :
  dict_get nb (neighbors self) = None ->
  updateRoutingTable self nb tbl =
  if existsb (fun item => negb (String.eqb (fst item) (name self))) tbl
  then Raise (KeyError nb)
  else Ok (self, false).
Proof.
  intros Hnb. unfold updateRoutingTable.
  rewrite (updateRoutingTable_loop_unknown self nb tbl Hnb).
  destruct (existsb _ _); simpl; [reflexivity|]. now rewrite node_eta.
Qed.

(** X1.  When [neighborName] is not a key of the neighbour map,
    [updateRoutingTable] raises [KeyError(neighborName)] exactly when the
    advertised table has a destination other than the node itself;
    otherwise it returns [False] and the node is unchanged. *)
Theorem updateRoutingTable_unknown_neighbor (self : Node)
    (neighborName : string) (neighborTable : dict entry) :
  dict_get neighborName (neighbors self) = None ->
  updateRoutingTable self neighborName neighborTable =
  if existsb (fun item => negb (String.eqb (fst item) (name self)))
       neighborTable
  then Raise (KeyError neighborName)
  else Ok (self, false).
Proof. apply updateRoutingTable_unknown. Qed.

Lemma updateRoutingTable_unknown_neighbor_witness :
  updateRoutingTable (Node_init "A") "B" [("C", (Fin 1, Some "C"))]
  = Raise (KeyError "B") /\
  updateRoutingTable (Node_init "A") "B" [("A", (Fin 1, Some "A"))]
  = Ok (Node_init "A", false).
Proof.
  split.
  - exact (updateRoutingTable_unknown_neighbor (Node_init "A") "B"
             [("C", (Fin 1, Some "C"))] eq_refl).
  - exact (updateRoutingTable_unknown_neighbor (Node_init "A") "B"
             [("A", (Fin 1, Some "A"))] eq_refl).
Defined.

Lemma updateRoutingTable_loop_dead self nb items :
  dict_get nb (neighbors self) = Some Inf ->
  forall rt u, updateRoutingTable_loop self nb items rt u = Ok (rt, u).
Proof.
  intros Hnb. induction items as [|[d0 [nc h]] rest IH]; intros rt u; simpl;
    [reflexivity|].
  rewrite Hnb. destruct (String.eqb d0 (name self)); apply IH.
Qed.



Lemma updateRoutingTable_loop_keys self nb items :
  forall rt u rt' u',
    updateRoutingTable_loop self nb items rt u = Ok (rt', u') ->
    exists added,
      keys rt' = keys rt ++ added /\
      forall d, In d added ->
                In d (keys items) /\ ~ In d (keys rt) /\ d <> name self.
Proof.
  induction items as [|[d0 [nc h]] rest IH]; intros rt u rt' u' Hrun;
    simpl in Hrun.
  - injection Hrun as <- _. exists []. rewrite app_nil_r. split; [reflexivity|].
    intros d [].
  - assert (Hrest : forall rt0 u0,
               updateRoutingTable_loop self nb rest rt0 u0 = Ok (rt', u') ->
               keys rt0 = keys rt ->
               exists added,
                 keys rt' = keys rt ++ added /\
                 forall d, In d added ->
                           In d (keys ((d0, (nc, h)) :: rest)) /\
                           ~ In d (keys rt) /\ d <> name self).
    { intros rt0 u0 H0 Hk. destruct (IH _ _ _ _ H0) as (added & Hkeys & Hadd).
      exists added. rewrite <- Hk. split; [exact Hkeys|].
      intros d Hd. destruct (Hadd d Hd) as (H1 & H2 & H3).
      repeat split; auto. now right. }
    destruct (String.eqb_spec d0 (name self)) as [|Hself];
      [eapply Hrest; eauto|].
    destruct (dict_get nb (neighbors self)) as [link|]; [|discriminate].
    destruct (cost_ltb _ _); [|eapply Hrest; eauto].
    destruct (in_dec string_dec d0 (keys rt)) as [Hin|Hnot].
    + eapply Hrest; [exact Hrun|]. now apply keys_dict_set_present.
    + destruct (IH _ _ _ _ Hrun) as (added & Hkeys & Hadd).
      rewrite keys_dict_set_absent in Hkeys, Hadd by assumption.
      exists (d0 :: added). split.
      * rewrite Hkeys, <- app_assoc. reflexivity.
      * intros d [<-|Hd].
        -- repeat split; auto. now left.
        -- destruct (Hadd d Hd) as (H1 & H2 & H3). repeat split; auto.
           ++ now right.
           ++ intros Hc. apply H2. apply in_or_app. now left.
Qed.

(** X3.  [updateRoutingTable] never deletes or reorders an entry: the keys
    of the table afterwards are the old keys, in their old positions,
    followed by the destinations newly learned, each of which is a
    destination the neighbour advertised, was not in the table before, and
    is not the node itself. *)
Theorem updateRoutingTable_keys (self self' : Node) (neighborName : string)
    (neighborTable : dict entry) (updated : bool) :
  updateRoutingTable self neighborName neighborTable = Ok (self', updated) ->
  exists added,
    keys (routingTable self') = keys (routingTable self) ++ added /\
    forall d, In d added ->
              In d (keys neighborTable) /\
              ~ In d (keys (routingTable self)) /\
              d <> name self.
Proof.
  unfold updateRoutingTable. intros H.
  destruct (updateRoutingTable_loop _ _ _ _ _) as [[rt' u']|e] eqn:Hloop;
    simpl in H; [|discriminate].
  injection H as <- _. simpl.
  eapply updateRoutingTable_loop_keys; eauto.
Qed.

Lemma updateRoutingTable_keys_witness :
  exists self' added,
    updateRoutingTable
      (mkNode "A" [("A", (Fin 0, Some "A")); ("B", (Fin 1, Some "B"))]
              [("B", Fin 1)])
      "B" [("B", (Fin 0, Some "B")); ("A", (Fin 1, Some "A"));
           ("C", (Fin 1, Some "C"))] = Ok (self', true) /\
    keys (routingTable self') = ["A"; "B"] ++ added.
Proof.
  eexists. 
  destruct (updateRoutingTable_keys
              (mkNode "A" [("A", (Fin 0, Some "A")); ("B", (Fin 1, Some "B"))]
                      [("B", Fin 1)])
              _ "B" [("B", (Fin 0, Some "B")); ("A", (Fin 1, Some "A"));
                     ("C", (Fin 1, Some "C"))] true eq_refl)
    as (added & Hkeys & _).
  exists added. split; [reflexivity|exact Hkeys].
Defined.

(** X4.  Hearing an unchanged advertisement again changes nothing: after
    [updateRoutingTable] with a table, a second call with the same
    neighbour and a table of the same content returns [False] and leaves
    the node as the first call left it. *)
Theorem updateRoutingTable_idempotent (self self' : Node)
    (neighborName : string) (neighborTable : dict entry) (updated : bool) :
  NoDup (keys neighborTable) ->
  updateRoutingTable self neighborName neighborTable = Ok (self', updated) ->
  updateRoutingTable self' neighborName neighborTable = Ok (self', false).
Proof.
  intros Hnd Hrun.
  destruct (dict_get neighborName (neighbors self)) as [link|] eqn:Hlink.
  - unfold updateRoutingTable in Hrun.
    destruct (updateRoutingTable_loop_spec self neighborName link neighborTable
                Hlink Hnd (routingTable self) false)
      as (rt' & u' & Hloop & Hpt & _).
    rewrite Hloop in Hrun. simpl in Hrun. injection Hrun as <- _.
    set (self' := mkNode (name self) rt' (neighbors self)).
    destruct (updateRoutingTable_loop_spec self' neighborName link
                neighborTable Hlink Hnd rt' false)
      as (rt'' & u'' & Hloop' & Hpt' & Hflag').
    assert (Hu : u'' = false).
    { destruct u''; [|reflexivity]. exfalso.
      destruct (proj1 Hflag' eq_refl) as [Habs|[d Hd]]; [discriminate|].
      apply Hd. rewrite Hpt'. simpl. unfold relaxed_entry.
      destruct (dict_get d neighborTable) as [[nc hh]|] eqn:Hnc; [|reflexivity].
      destruct (negb (String.eqb d (name self))) eqn:Hself; [|reflexivity].
      simpl. unfold dict_get_or. rewrite (Hpt d). unfold relaxed_entry.
      rewrite Hnc, Hself. simpl.
      destruct (cost_ltb (cost_add link nc)
                  (fst (dict_get_or d (Inf, None) (routingTable self))))
        eqn:Hlt.
      - simpl. now rewrite cost_ltb_irrefl.
      - unfold dict_get_or in Hlt. now rewrite Hlt. }
    subst u''. apply updateRoutingTable_loop_false in Hloop' as Heq.
    destruct Heq as [-> _].
    unfold updateRoutingTable. simpl in *. rewrite Hloop'. reflexivity.
  - rewrite updateRoutingTable_unknown in Hrun by assumption.
    destruct (existsb _ _) eqn:Hex; [discriminate|].
    injection Hrun as <- _.
    rewrite updateRoutingTable_unknown by assumption.
    now rewrite Hex.
Qed.

Lemma updateRoutingTable_idempotent_witness :
  exists self',
    updateRoutingTable
      (mkNode "A" [("A", (Fin 0, Some "A")); ("B", (Fin 1, Some "B"))]
              [("B", Fin 1)])
      "B" [("B", (Fin 0, Some "B")); ("C", (Fin 1, Some "C"))]
    = Ok (self', true) /\
    updateRoutingTable self' "B"
      [("B", (Fin 0, Some "B")); ("C", (Fin 1, Some "C"))]
    = Ok (self', false).
Proof.
  eexists. split; [reflexivity|].
  apply (updateRoutingTable_idempotent
           (mkNode "A" [("A", (Fin 0, Some "A")); ("B", (Fin 1, Some "B"))]
                   [("B", Fin 1)]) _ "B"
           [("B", (Fin 0, Some "B")); ("C", (Fin 1, Some "C"))] true).
  - repeat constructor; simpl; intuition discriminate.
  - reflexivity.
Defined.

(** ** Node.disconnectNeighbor: composition *)

Lemma disconnectNeighbor_twice self m :
  disconnectNeighbor (disconnectNeighbor self m) m = disconnectNeighbor self m.
Proof.
  unfold disconnectNeighbor at 2 3.
  destruct (dict_mem m (neighbors self)) eqn:Hm.
  - unfold disconnectNeighbor, dict_mem. simpl.
    rewrite dict_get_set_eq, !dict_set_set. reflexivity.
  - unfold disconnectNeighbor. now rewrite Hm.
Qed.

(** X5.  [disconnectNeighbor] keeps the neighbour in the neighbour map
    (same keys, same order), and disconnecting the same neighbour a second
    time changes nothing. *)
Theorem disconnectNeighbor_idempotent (self : Node) (neighborName : string) :
  keys (neighbors (disconnectNeighbor self neighborName)) = keys (neighbors self)
  /\
  disconnectNeighbor (disconnectNeighbor self neighborName) neighborName
  = disconnectNeighbor self neighborName.
Proof.
  split; [|apply disconnectNeighbor_twice].
  unfold disconnectNeighbor.
  destruct (dict_mem neighborName (neighbors self)) eqn:Hm; [|reflexivity].
  simpl. apply keys_dict_set_present. now apply dict_mem_true.
Qed.

(** ** Network.connectNodes: composition *)

Lemma connect_node_twice m c c' node :
  connect_node m c (connect_node m c' node) = connect_node m c node.
Proof.
  unfold connect_node, set_route, set_neighbor. simpl.
  now rewrite !dict_set_set.
Qed.

(** The four assignments amount to one update of each end. *)
Lemma connectNodes_normal net a b c :
  connectNodes net a b c =
  if dict_mem a net && dict_mem b net
  then dict_modify b (connect_node a c) (dict_modify a (connect_node b c) net)
  else net.
Proof.
  unfold connectNodes. destruct (dict_mem a net && dict_mem b net);
    [|reflexivity].
  destruct (string_dec a b) as [->|Hne].
  - rewrite !dict_modify_modify. apply dict_modify_ext. intros v _.
    unfold connect_node, set_route, set_neighbor. simpl.
    now rewrite !dict_set_set.
  - rewrite (dict_modify_comm a b (set_route b (c, Some b))) by assumption.
    now rewrite !dict_modify_modify.
Qed.

(** X6.  [connectNodes] does not depend on the order of its two node
    arguments: [connectNodes(a, b, cost)] and [connectNodes(b, a, cost)]
    leave the same network, entry order included. *)
Theorem connectNodes_symmetric (net : Network) (a b : string) (c : cost) :
  connectNodes net a b c = connectNodes net b a c.
Proof.
  rewrite !connectNodes_normal, (andb_comm (dict_mem b net)).
  destruct (dict_mem a net && dict_mem b net); [|reflexivity].
  destruct (string_dec a b) as [->|Hne]; [reflexivity|].
  now apply dict_modify_comm.
Qed.

(** X7.  Connecting the same pair again replaces the link: after
    [connectNodes(a, b, c1)] and [connectNodes(a, b, c2)] the network is the
    one [connectNodes(a, b, c2)] alone leaves; in particular a repeated
    call with the same cost changes nothing. *)
Theorem connectNodes_last_wins (net : Network) (a b : string) (c1 c2 : cost) :
  connectNodes (connectNodes net a b c1) a b c2 = connectNodes net a b c2.
Proof.
  rewrite (connectNodes_normal (connectNodes net a b c1)).
  rewrite !connectNodes_normal.
  destruct (dict_mem a net && dict_mem b net) eqn:Hmem.
  - rewrite !dict_mem_modify, Hmem.
    destruct (string_dec a b) as [->|Hne].
    + rewrite !dict_modify_modify. apply dict_modify_ext. intros v _.
      now rewrite !connect_node_twice.
    + rewrite (dict_modify_comm a b (connect_node b c2)) by assumption.
      rewrite dict_modify_modify.
      rewrite (dict_modify_modify a).
      etransitivity;
        [apply dict_modify_ext; intros v _; apply connect_node_twice|].
      apply (f_equal (dict_modify b (connect_node a c2))).
      apply dict_modify_ext. intros v _. apply connect_node_twice.
  - now rewrite Hmem.
Qed.

Lemma neighbor_cost_modify net k (f : Node -> Node) n m :
  neighbor_cost (dict_modify k f net) n m =
  if String.eqb n k
  then match dict_get n net with
       | Some node => dict_get m (neighbors (f node))
       | None => None
       end
  else neighbor_cost net n m.
Proof.
  unfold neighbor_cost. rewrite dict_get_modify.
  destruct (String.eqb n k); [|reflexivity].
  now destruct (dict_get n net).
Qed.

(** X8.  [connectNodes] changes nothing when either id is unknown, and
    otherwise touches only the pair: the node ids and their order are the
    same, both ends record the cost for each other, and every other
    neighbour cost and every other route of every node is as before. *)
Theorem connectNodes_frame (net : Network) (a b : string) (c : cost) :
  keys (connectNodes net a b c) = keys net /\
  (dict_mem a net && dict_mem b net = false -> connectNodes net a b c = net) /\
  (dict_mem a net && dict_mem b net = true ->
   neighbor_cost (connectNodes net a b c) a b = Some c /\
   neighbor_cost (connectNodes net a b c) b a = Some c) /\
  (forall k m,
      ~ (k = a /\ m = b) -> ~ (k = b /\ m = a) ->
      neighbor_cost (connectNodes net a b c) k m = neighbor_cost net k m /\
      route (connectNodes net a b c) k m = route net k m).
Proof.
  split; [apply keys_connectNodes|].
  rewrite connectNodes_normal.
  destruct (dict_mem a net && dict_mem b net) eqn:Hmem.
  - apply andb_true_iff in Hmem as [Ha Hb].
    unfold dict_mem in Ha, Hb.
    destruct (dict_get a net) as [na|] eqn:Hna; [|discriminate].
    destruct (dict_get b net) as [nb|] eqn:Hnb; [|discriminate].
    split; [discriminate|]. split.
    + intros _. destruct (string_dec a b) as [Heq|Hne].
      * subst b. rewrite dict_modify_modify. unfold neighbor_cost.
        rewrite dict_get_modify, String.eqb_refl, Hna. simpl.
        rewrite dict_get_set_eq. auto.
      * unfold neighbor_cost. rewrite !dict_get_modify, !String.eqb_refl.
        destruct (String.eqb_spec a b); [contradiction|].
        destruct (String.eqb_spec b a); [congruence|].
        rewrite Hna, Hnb. simpl. rewrite !dict_get_set_eq. auto.
    + intros k m H1 H2. unfold neighbor_cost, route.
      rewrite !dict_get_modify.
      destruct (String.eqb_spec k b) as [Hkb|Hkb];
        destruct (String.eqb_spec k a) as [Hka|Hka];
        destruct (dict_get k net) as [nk|]; simpl; auto;
        rewrite ?dict_get_set_neq; auto; intros Hm; tauto.
  - split; [reflexivity|]. split; [discriminate|]. auto.
Qed.

Lemma connectNodes_frame_witness :
  neighbor_cost driver_network "A" "C" = Some (Fin 4) /\
  connectNodes driver_network "A" "Z" (Fin 1) = driver_network.
Proof.
  split.
  - apply (proj1 (proj1 (proj2 (proj2
             (connectNodes_frame
                (connectNodes (connectNodes
                   (addNode (addNode (addNode Network_init "A") "B") "C")
                   "A" "B" (Fin 1)) "B" "C" (Fin 1)) "A" "C" (Fin 4))))
             eq_refl)).
  - apply (proj1 (proj2 (connectNodes_frame driver_network "A" "Z" (Fin 1)))).
    reflexivity.
Defined.

(** X9.  Adding an id that already exists silently replaces its node by a
    fresh one in the same position: a link set up before then survives on
    the other side only.  For distinct existing ids [a] and [b], after
    [connectNodes(a, b, c)] and [addNode(a)] node [b] still records the
    cost and the route to [a], while [a] has neither neighbour nor route to
    [b]. *)
Theorem addNode_again_one_sided (net : Network) (a b : string) (c : cost) :
  a <> b -> dict_mem a net = true -> dict_mem b net = true ->
  let net' := addNode (connectNodes net a b c) a in
  keys net' = keys net /\
  dict_get a net' = Some (Node_init a) /\
  neighbor_cost net' b a = Some c /\
  route net' b a = Some (c, Some a) /\
  neighbor_cost net' a b = None /\
  route net' a b = None.
Proof.
  intros Hne Ha Hb net'. unfold net', addNode.
  assert (Hne' : b <> a) by congruence.
  unfold dict_mem in Hb. destruct (dict_get b net) as [nb|] eqn:Hnb;
    [|discriminate].
  assert (Hb' : dict_get b (connectNodes net a b c)
                = Some (connect_node a c nb)).
  { rewrite connectNodes_get; auto; [|unfold dict_mem; now rewrite Hnb].
    rewrite Hnb. simpl.
    destruct (String.eqb_spec b a); [contradiction|].
    now rewrite String.eqb_refl. }
  split; [|split; [|split; [|split; [|split]]]].
  - rewrite keys_dict_set_present, keys_connectNodes; [reflexivity|].
    rewrite keys_connectNodes. now apply dict_mem_true.
  - apply dict_get_set_eq.
  - unfold neighbor_cost. rewrite dict_get_set_neq, Hb' by assumption.
    simpl. apply dict_get_set_eq.
  - unfold route. rewrite dict_get_set_neq, Hb' by assumption.
    simpl. apply dict_get_set_eq.
  - unfold neighbor_cost. now rewrite dict_get_set_eq.
  - unfold route. rewrite dict_get_set_eq. simpl.
    destruct (String.eqb_spec b a); [contradiction|reflexivity].
Qed.

Lemma addNode_again_one_sided_witness :
  let net' := addNode (connectNodes (addNode (addNode Network_init "A") "B")
                         "A" "B" (Fin 3)) "A" in
  neighbor_cost net' "B" "A" = Some (Fin 3) /\
  neighbor_cost net' "A" "B" = None.
Proof.
  intros net'.
  destruct (addNode_again_one_sided (addNode (addNode Network_init "A") "B")
              "A" "B" (Fin 3)) as (_ & _ & H1 & _ & H2 & _);
    [discriminate|reflexivity|reflexivity|].
  split; [exact H1|exact H2].
Defined.

(** ** Network.simulateFailure: composition *)

Lemma simulateFailure_normal net a b :
  simulateFailure net a b =
  if negb (dict_mem a net) || negb (dict_mem b net)
  then Ok (net, [("Errore: " ++ a ++ " o " ++ b
                    ++ " non esiste nella rete.")%string])
  else Ok (dict_modify b (fun n => disconnectNeighbor n a)
             (dict_modify a (fun n => disconnectNeighbor n b) net), []).
Proof. reflexivity. Qed.

(** X10.  [simulateFailure] leaves the same network whichever of the two
    ids comes first (only the printed message names them in the order
    given), and a second call with the same ids changes nothing more. *)
Theorem simulateFailure_symmetric_idempotent (net : Network) (a b : string) :
  exists net' out out',
    simulateFailure net a b = Ok (net', out) /\
    simulateFailure net b a = Ok (net', out') /\
    simulateFailure net' a b = Ok (net', out).
Proof.
  rewrite !simulateFailure_normal, (orb_comm (negb (dict_mem b net))).
  destruct (negb (dict_mem a net) || negb (dict_mem b net)) eqn:Hmem.
  - do 3 eexists. split; [reflexivity|]. split; [reflexivity|].
    rewrite simulateFailure_normal, Hmem. reflexivity.
  - do 3 eexists. split; [reflexivity|]. split.
    + destruct (string_dec a b) as [->|Hne]; [reflexivity|].
      now rewrite dict_modify_comm.
    + rewrite simulateFailure_normal, !dict_mem_modify, Hmem.
      f_equal. f_equal.
      destruct (string_dec a b) as [->|Hne].
      * rewrite !dict_modify_modify. apply dict_modify_ext. intros v _.
        now rewrite !disconnectNeighbor_twice.
      * rewrite (dict_modify_comm a b (fun n => disconnectNeighbor n b))
          by assumption.
        rewrite dict_modify_modify, (dict_modify_modify a).
        etransitivity;
          [apply dict_modify_ext; intros v _; apply disconnectNeighbor_twice|].
        apply (f_equal (dict_modify b (fun n => disconnectNeighbor n a))).
        apply dict_modify_ext. intros v _. apply disconnectNeighbor_twice.
Qed.

(** ** Network.simulateIteration: what a round keeps *)

Lemma grows_refl net : grows net net.
Proof.
  split; [reflexivity|]. intros k node node' H1 H2.
  rewrite H1 in H2. injection H2 as <-. exists []. now rewrite app_nil_r.
Qed.

Lemma grows_trans net1 net2 net3 :
  grows net1 net2 -> grows net2 net3 -> grows net1 net3.
Proof.
  intros [Hk12 H12] [Hk23 H23]. split; [congruence|].
  intros k node1 node3 H1 H3.
  assert (Hin : In k (keys net2)).
  { rewrite Hk12. eapply dict_get_Some_keys; eauto. }
  apply dict_get_keys in Hin as [node2 H2].
  destruct (H12 k node1 node2 H1 H2) as [add1 Ha1].
  destruct (H23 k node2 node3 H2 H3) as [add2 Ha2].
  exists (add1 ++ add2). now rewrite Ha2, Ha1, app_assoc.
Qed.

Lemma visit_grows n net u m net' u' :
  visit n (net, u) m = Ok (net', u') -> grows net net'.
Proof.
  intros H. apply visit_cases in H as [[= -> ->]|H]; [apply grows_refl|].
  destruct H as (node & nb & rt' & uu & Hn & _ & Hloop & [= -> ->]).
  split.
  - apply keys_dict_set_present. eapply dict_get_Some_keys; eauto.
  - intros k node1 node2 H1. rewrite dict_get_set.
    destruct (String.eqb_spec k n) as [->|].
    + intros [= <-]. rewrite Hn in H1. injection H1 as <-. simpl.
      apply updateRoutingTable_loop_keys in Hloop as (added & Hk & _).
      now exists added.
    + intros H2. rewrite H1 in H2. injection H2 as <-.
      exists []. now rewrite app_nil_r.
Qed.

Lemma run_grows l st st' :
  foldM visit_pair l st = Ok st' -> grows (fst st) (fst st').
Proof.
  intros Hrun.
  apply (foldM_preserves visit_pair (fun s => grows (fst st) (fst s)) l)
    with (s := st); [|apply grows_refl|exact Hrun].
  intros [net u] [n m] [net' u'] _ Hs Hvisit. simpl in *.
  eapply grows_trans; [exact Hs|]. eapply visit_grows; eauto.
Qed.


(** ** Network.simulateIteration: the returned flag *)

Lemma cost_lt_le_trans a b c : cost_lt a b -> cost_le b c -> cost_lt a c.
Proof.
  unfold cost_lt. destruct a, b, c; simpl; try discriminate; try tauto.
  intros H1 H2. apply Z.ltb_lt in H1. apply Z.ltb_lt. lia.
Qed.

Lemma cost_le_lt_trans a b c : cost_le a b -> cost_lt b c -> cost_lt a c.
Proof.
  unfold cost_lt. destruct a, b, c; simpl; try discriminate; try tauto.
  intros H1 H2. apply Z.ltb_lt in H2. apply Z.ltb_lt. lia.
Qed.

Lemma updateRoutingTable_loop_true self nb items :
  forall rt u rt',
    updateRoutingTable_loop self nb items rt u = Ok (rt', true) ->
    u = true \/ exists d, cost_lt (table_cost rt' d) (table_cost rt d).
Proof.
  induction items as [|[d0 [nc h]] rest IH]; intros rt u rt' Hrun;
    simpl in Hrun.
  - injection Hrun as _ <-. now left.
  - destruct (String.eqb d0 (name self)); [eapply IH; eauto|].
    destruct (dict_get nb (neighbors self)) as [link|]; [|discriminate].
    destruct (cost_ltb _ _) eqn:Hlt; [|eapply IH; eauto].
    right. exists d0.
    eapply cost_le_lt_trans;
      [eapply updateRoutingTable_loop_mono; exact Hrun|].
    rewrite table_cost_set, String.eqb_refl. exact Hlt.
Qed.

Lemma visit_true n net u m net' :
  visit n (net, u) m = Ok (net', true) ->
  u = true \/ exists k d, cost_lt (route_cost net' k d) (route_cost net k d).
Proof.
  intros H. apply visit_cases in H as [[= -> ->]|H]; [now left|].
  destruct H as (node & nb & rt' & uu & Hn & _ & Hloop & [= -> Hu]).
  symmetry in Hu. apply orb_true_iff in Hu as [->| ->]; [now left|].
  apply updateRoutingTable_loop_true in Hloop as [Habs|[d Hd]];
    [discriminate|].
  right. exists n, d. rewrite !route_cost_table, dict_get_set_eq, Hn.
  exact Hd.
Qed.

Lemma run_true l :
  forall net u net',
    foldM visit_pair l (net, u) = Ok (net', true) ->
    u = true \/ exists k d, cost_lt (route_cost net' k d) (route_cost net k d).
Proof.
  induction l as [|[n m] l IH]; intros net u net' Hrun; cbn [foldM] in Hrun.
  - injection Hrun as _ <-. now left.
  - unfold visit_pair at 1 in Hrun. cbn [fst snd] in Hrun.
    destruct (visit n (net, u) m) as [[net1 u1]|e] eqn:Hvisit;
      cbn [bind] in Hrun; [|discriminate].
    pose proof (run_costs_le _ _ _ Hrun) as Hle. simpl in Hle.
    pose proof (visit_costs_le _ _ _ _ _ _ Hvisit) as Hle1.
    destruct (IH _ _ _ Hrun) as [->|(k & d & Hlt)].
    + apply visit_true in Hvisit as [Hu|(k & d & Hlt)]; [now left|].
      right. exists k, d. eapply cost_le_lt_trans; [apply Hle|exact Hlt].
    + right. exists k, d. eapply cost_lt_le_trans; [exact Hlt|apply Hle1].
Qed.

Lemma simulateIteration_true net net' :
  simulateIteration net = Ok (net', true) ->
  exists k d, cost_lt (route_cost net' k d) (route_cost net k d).
Proof.
  rewrite simulateIteration_schedule. intros H.
  apply run_true in H as [Habs|H]; [discriminate|exact H].
Qed.

(** X12.  The flag a round returns is true exactly when the round lowered
    some recorded cost: for some node and destination the cost after the
    round is strictly below the cost before it (a missing entry counting as
    infinite). *)
Theorem simulateIteration_flag (net net' : Network) (updated : bool) :
  simulateIteration net = Ok (net', updated) ->
  (updated = true <->
   exists k d, cost_lt (route_cost net' k d) (route_cost net k d)).
Proof.
  intros Hrun. split.
  - intros ->. now apply simulateIteration_true.
  - intros (k & d & Hlt). destruct updated; [reflexivity|].
    apply simulateIteration_false in Hrun. subst net'.
    unfold cost_lt in Hlt. now rewrite cost_ltb_irrefl in Hlt.
Qed.

Lemma simulateIteration_flag_witness :
  exists net',
    simulateIteration driver_network = Ok (net', true) /\
    exists k d, cost_lt (route_cost net' k d) (route_cost driver_network k d).
Proof.
  eexists. split; [reflexivity|].
  apply (simulateIteration_flag driver_network _ true eq_refl). reflexivity.
Defined.

(** ** Invariants of every sequence of calls *)

Lemma dict_modify_all {V} (P : string -> V -> Prop) k0 (f : V -> V)
    (d : dict V) :
  (forall k v, dict_get k d = Some v -> P k v) ->
  (forall v, P k0 v -> P k0 (f v)) ->
  forall k v, dict_get k (dict_modify k0 f d) = Some v -> P k v.
Proof.
  intros Hall Hf k v. rewrite dict_get_modify.
  destruct (String.eqb_spec k k0) as [->|]; [|apply Hall].
  destruct (dict_get k0 d) as [v0|] eqn:Hk; [|discriminate].
  intros [= <-]. apply Hf. now apply Hall.
Qed.

Lemma dict_set_all {V} (P : string -> V -> Prop) k0 (v0 : V) (d : dict V) :
  (forall k v, dict_get k d = Some v -> P k v) ->
  P k0 v0 ->
  forall k v, dict_get k (dict_set k0 v0 d) = Some v -> P k v.
Proof.
  intros Hall H0 k v. rewrite dict_get_set.
  destruct (String.eqb_spec k k0) as [->|]; [|apply Hall].
  now intros [= <-].
Qed.

Lemma updateRoutingTable_loop_hop self nb items :
  forall rt u rt' u',
    updateRoutingTable_loop self nb items rt u = Ok (rt', u') ->
    forall d e,
      dict_get d rt' = Some e ->
      dict_get d rt = Some e \/
      (snd e = Some nb /\ In nb (keys (neighbors self))).
Proof.
  induction items as [|[d0 [nc h]] rest IH]; intros rt u rt' u' Hrun d e He;
    simpl in Hrun.
  - injection Hrun as <- _. now left.
  - destruct (String.eqb d0 (name self)); [eapply IH; eauto|].
    destruct (dict_get nb (neighbors self)) as [link|] eqn:Hlink;
      [|discriminate].
    destruct (cost_ltb _ _); [|eapply IH; eauto].
    destruct (IH _ _ _ _ Hrun d e He) as [Hold|Hnew]; [|now right].
    rewrite dict_get_set in Hold.
    destruct (String.eqb d d0); [|now left].
    injection Hold as <-. right. split; [reflexivity|].
    eapply dict_get_Some_keys; eauto.
Qed.

Lemma hop_ok_connect m c node :
  hop_ok_node node -> hop_ok_node (connect_node m c node).
Proof.
  intros Hok d c0 h. simpl. rewrite dict_get_set.
  destruct (String.eqb_spec d m) as [->|].
  - intros [= _ <-]. right. apply In_keys_dict_set. now left.
  - intros H. destruct (Hok d c0 h H) as [Hn|Hin]; [now left|].
    right. apply In_keys_dict_set. now right.
Qed.

Lemma hop_ok_disconnect m node :
  hop_ok_node node -> hop_ok_node (disconnectNeighbor node m).
Proof.
  intros Hok. unfold disconnectNeighbor.
  destruct (dict_mem m (neighbors node)); [|exact Hok].
  intros d c h. simpl. rewrite dict_get_set.
  destruct (String.eqb_spec d m) as [->|]; [discriminate|].
  intros H. destruct (Hok d c h H) as [Hn|Hin]; [now left|].
  right. apply In_keys_dict_set. now right.
Qed.

Lemma hop_ok_visit n net u m net' u' :
  (forall k node, dict_get k net = Some node -> hop_ok_node node) ->
  visit n (net, u) m = Ok (net', u') ->
  forall k node, dict_get k net' = Some node -> hop_ok_node node.
Proof.
  intros Hok H. apply visit_cases in H as [[= -> ->]|H]; [exact Hok|].
  destruct H as (node & nb & rt' & uu & Hn & _ & Hloop & [= -> ->]).
  apply (dict_set_all (fun _ => hop_ok_node)); [exact Hok|].
  intros d c h Hd. simpl in *.
  destruct (updateRoutingTable_loop_hop _ _ _ _ _ _ _ Hloop d _ Hd)
    as [Hold|[Hh Hin]].
  - eapply Hok; eauto.
  - simpl in Hh. injection Hh as ->. now right.
Qed.

Lemma apply_op_invariant (I : Network -> Prop) (Pc : cost -> Prop) :
  (forall net nm, I net -> I (addNode net nm)) ->
  (forall net a b c, Pc c -> I net -> I (connectNodes net a b c)) ->
  (forall net n m st',
      I net -> visit n (net, false) m = Ok st' -> I (fst st')) ->
  (forall net a node m,
      I net -> dict_get a net = Some node ->
      I (dict_set a (disconnectNeighbor node m) net)) ->
  forall ops net,
    Forall (fun o => match o with
                     | ConnectNodes _ _ c => Pc c
                     | _ => True
                     end) ops ->
    run_ops ops = Ok net -> I Network_init -> I net.
Proof.
  intros Hadd Hconnect Hvisit Hdisc ops net Hops Hrun H0.
  assert (Hvisit' : forall net n m u st',
             I net -> visit n (net, u) m = Ok st' -> I (fst st')).
  { intros net0 n m u st' Hnet Hv.
    apply visit_cases in Hv as [->|Hv]; [exact Hnet|].
    destruct Hv as (node & nb & rt' & uu & Hn & Hm & Hloop & ->).
    apply (Hvisit net0 n m
             (dict_set n (mkNode (name node) rt' (neighbors node)) net0,
              false || uu)); [exact Hnet|].
    unfold visit, updateRoutingTable, shareTable.
    now rewrite Hn, Hm, Hloop. }
  apply (foldM_preserves apply_op I ops) with (s := Network_init);
    [|exact H0|exact Hrun].
  intros s o s' Hin Hs Happ.
  rewrite Forall_forall in Hops. specialize (Hops o Hin).
  destruct o as [nm|a b c| |a b|a b]; simpl in Happ.
  - injection Happ as <-. now apply Hadd.
  - injection Happ as <-. now apply Hconnect.
  - destruct (simulateIteration s) as [[s1 u]|e] eqn:Hround;
      simpl in Happ; [|discriminate].
    injection Happ as <-. rewrite simulateIteration_schedule in Hround.
    apply (foldM_preserves visit_pair (fun st => I (fst st)) (schedule s))
      with (s := (s, false)) (s' := (s1, u)); auto.
    intros [net1 u1] [n m] st2 _ H1 Hv. simpl in H1.
    eapply Hvisit'; eauto.
  - destruct (dict_get a s) as [node|] eqn:Ha; [|discriminate].
    injection Happ as <-. now apply Hdisc.
  - rewrite simulateFailure_normal in Happ.
    destruct (negb (dict_mem a s) || negb (dict_mem b s)); simpl in Happ;
      injection Happ as <-; [exact Hs|].
    assert (Hmod : forall net k m,
               I net -> I (dict_modify k (fun n => disconnectNeighbor n m) net)).
    { intros net0 k m Hnet. unfold dict_modify.
      destruct (dict_get k net0) as [node|] eqn:Hk; [|exact Hnet].
      now apply Hdisc. }
    now repeat apply Hmod.
Qed.

Lemma any_cost_ops (ops : list op) :
  Forall (fun o => match o with
                   | ConnectNodes _ _ c => True
                   | _ => True
                   end) ops.
Proof. apply Forall_forall. intros [ | | | | ] _; exact I. Qed.

(** X13.  In every network reached by any sequence of [addNode],
    [connectNodes], [simulateIteration], [disconnectNeighbor] and
    [simulateFailure] calls, the next hop of every route is the node
    itself or one of the keys of the node's neighbour map (or [None]). *)
Theorem next_hop_is_neighbor (ops : list op) (net : Network) :
  run_ops ops = Ok net ->
  forall k node d c h,
    dict_get k net = Some node ->
    dict_get d (routingTable node) = Some (c, Some h) ->
    h = name node \/ In h (keys (neighbors node)).
Proof.
  intros Hrun.
  assert (Hok : forall k node, dict_get k net = Some node -> hop_ok_node node).
  { apply (apply_op_invariant
             (fun net => forall k node,
                  dict_get k net = Some node -> hop_ok_node node)
             (fun _ => True))
      with (ops := ops); auto using any_cost_ops.
    - intros net0 nm H0. unfold addNode.
      apply (dict_set_all (fun _ => hop_ok_node)); [exact H0|].
      intros d c h. simpl. destruct (String.eqb d nm); [|discriminate].
      intros [= _ <-]. now left.
    - intros net0 a b c _ H0. rewrite connectNodes_normal.
      destruct (dict_mem a net0 && dict_mem b net0); [|exact H0].
      apply (dict_modify_all (fun _ => hop_ok_node));
        [|intros v; apply hop_ok_connect].
      apply (dict_modify_all (fun _ => hop_ok_node));
        [exact H0|intros v; apply hop_ok_connect].
    - intros net0 n m [net1 u1] H0 Hv. eapply hop_ok_visit; eauto.
    - intros net0 a node m H0 Ha.
      apply (dict_set_all (fun _ => hop_ok_node)); [exact H0|].
      apply hop_ok_disconnect. eapply H0; eauto.
    - intros k node [=]. }
  intros k node d c h Hk. exact (Hok k node Hk d c h).
Qed.

Lemma next_hop_is_neighbor_witness :
  "C" = "A" \/ In "C" ["B"; "C"].
Proof.
  apply (next_hop_is_neighbor
           [AddNode "A"; AddNode "B"; AddNode "C";
            ConnectNodes "A" "B" (Fin 1); ConnectNodes "B" "C" (Fin 1);
            ConnectNodes "A" "C" (Fin 4)]
           driver_network eq_refl "A"
           (mkNode "A" [("A", (Fin 0, Some "A")); ("B", (Fin 1, Some "B"));
                        ("C", (Fin 4, Some "C"))]
                   [("B", Fin 1); ("C", Fin 4)])
           "C" (Fin 4) "C"); reflexivity.
Defined.

Lemma known_node_incl ks ks' k node :
  incl ks ks' -> known_node ks k node -> known_node ks' k node.
Proof.
  intros Hincl (H1 & H2 & H3).
  repeat split; auto; eapply incl_tran; eauto.
Qed.

Lemma known_connect ks k m c node :
  In m ks -> known_node ks k node -> known_node ks k (connect_node m c node).
Proof.
  intros Hm (H1 & H2 & H3). repeat split; auto; simpl;
    intros x Hx; apply In_keys_dict_set in Hx as [->|Hx]; auto.
Qed.

Lemma known_disconnect ks k m node :
  known_node ks k node -> known_node ks k (disconnectNeighbor node m).
Proof.
  intros (H1 & H2 & H3). unfold disconnectNeighbor.
  destruct (dict_mem m (neighbors node)) eqn:Hm; [|now repeat split].
  apply dict_mem_true in Hm.
  repeat split; auto; simpl;
    intros x Hx; apply In_keys_dict_set in Hx as [->|Hx]; auto.
Qed.

(** X14.  In every network reached by any sequence of calls, each node is
    stored under its own name and every destination of its routing table
    and every key of its neighbour map is the id of a node of the network;
    so the test [neighborName in self.nodes] of [simulateIteration] never
    skips a neighbour. *)
Theorem destinations_are_nodes (ops : list op) (net : Network) :
  run_ops ops = Ok net ->
  forall k node,
    dict_get k net = Some node ->
    name node = k /\
    (forall d, In d (keys (routingTable node)) -> dict_mem d net = true) /\
    (forall m, In m (keys (neighbors node)) -> dict_mem m net = true).
Proof.
  intros Hrun.
  assert (Hok : forall k node,
             dict_get k net = Some node -> known_node (keys net) k node).
  { apply (apply_op_invariant
             (fun net => forall k node,
                  dict_get k net = Some node -> known_node (keys net) k node)
             (fun _ => True))
      with (ops := ops); auto using any_cost_ops.
    - intros net0 nm H0. unfold addNode.
      assert (Hincl : incl (keys net0) (keys (dict_set nm (Node_init nm) net0)))
        by (intros x Hx; apply In_keys_dict_set; now right).
      apply dict_set_all.
      + intros k node Hk. eapply known_node_incl; eauto.
      + repeat split; simpl.
        * intros x [<-|[]]. apply In_keys_dict_set. now left.
        * intros x [].
    - intros net0 a b c _ H0. rewrite keys_connectNodes, connectNodes_normal.
      destruct (dict_mem a net0 && dict_mem b net0) eqn:Hmem; [|exact H0].
      apply andb_true_iff in Hmem as [Ha Hb].
      apply dict_mem_true in Ha, Hb.
      apply dict_modify_all; [|intros v; now apply known_connect].
      apply dict_modify_all; [exact H0|intros v; now apply known_connect].
    - intros net0 n m [net1 u1] H0 Hv. simpl.
      pose proof (visit_grows _ _ _ _ _ _ Hv) as [Hkeys _]. rewrite Hkeys.
      apply visit_cases in Hv as [[= -> ->]|Hv]; [exact H0|].
      destruct Hv as (node & nb & rt' & uu & Hn & Hm & Hloop & [= -> ->]).
      apply dict_set_all; [exact H0|].
      destruct (H0 n node Hn) as (H1 & H2 & H3).
      destruct (H0 m nb Hm) as (_ & Hnb & _).
      apply updateRoutingTable_loop_keys in Hloop as (added & Hk & Hadd).
      repeat split; auto. simpl. rewrite Hk.
      intros x Hx. apply in_app_or in Hx as [Hx|Hx]; [now apply H2|].
      apply Hnb. now apply Hadd.
    - intros net0 a node m H0 Ha.
      rewrite keys_dict_set_present by (eapply dict_get_Some_keys; eauto).
      apply dict_set_all; [exact H0|].
      apply known_disconnect. now apply H0.
    - intros k node [=]. }
  intros k node Hk. destruct (Hok k node Hk) as (H1 & H2 & H3).
  split; [exact H1|].
  split; intros x Hx; apply dict_mem_true; auto.
Qed.

Lemma destinations_are_nodes_witness :
  dict_mem "B" line_network = true.
Proof.
  destruct (destinations_are_nodes
              [AddNode "A"; AddNode "B"; AddNode "C"; AddNode "D";
               ConnectNodes "A" "B" (Fin 1); ConnectNodes "B" "C" (Fin 1);
               ConnectNodes "C" "D" (Fin 1)]
              line_network eq_refl "A"
              (mkNode "A" [("A", (Fin 0, Some "A")); ("B", (Fin 1, Some "B"))]
                      [("B", Fin 1)]) eq_refl) as (_ & Hdest & _).
  apply Hdest. simpl. tauto.
Defined.

(** ** Costs never turn negative *)

Lemma forallb_dict_set {V} (f : string * V -> bool) k v (d : dict V) :
  f (k, v) = true -> forallb f d = true -> forallb f (dict_set k v d) = true.
Proof.
  intros Hf. induction d as [|[k0 v0] d IH]; simpl.
  - now rewrite Hf.
  - intros H. apply andb_true_iff in H as [H0 Hd].
    destruct (String.eqb k k0); simpl.
    + now rewrite Hf, Hd.
    + now rewrite H0, IH.
Qed.

Lemma forallb_dict_get {V} (f : string * V -> bool) k v (d : dict V) :
  forallb f d = true -> dict_get k d = Some v -> f (k, v) = true.
Proof.
  intros Hall Hk. rewrite forallb_forall in Hall. apply Hall.
  now apply dict_get_In.
Qed.

Lemma nn_add a b : nn a = true -> nn b = true -> nn (cost_add a b) = true.
Proof.
  destruct a, b; simpl; auto. intros Ha Hb.
  apply Z.leb_le in Ha, Hb. apply Z.leb_le. lia.
Qed.

Lemma updateRoutingTable_loop_nonneg self nb items :
  forallb (fun mc => nn (snd mc)) (neighbors self) = true ->
  forallb (fun de => nn (fst (snd de))) items = true ->
  forall rt u rt' u',
    forallb (fun de => nn (fst (snd de))) rt = true ->
    updateRoutingTable_loop self nb items rt u = Ok (rt', u') ->
    forallb (fun de : string * entry => nn (fst (snd de))) rt' = true.
Proof.
  intros Hnb. induction items as [|[d0 [nc h]] rest IH];
    intros Hitems rt u rt' u' Hrt Hrun; simpl in Hrun.
  - now injection Hrun as <- _.
  - simpl in Hitems. apply andb_true_iff in Hitems as [Hnc Hrest].
    destruct (String.eqb d0 (name self)); [eapply IH; eauto|].
    destruct (dict_get nb (neighbors self)) as [link|] eqn:Hlink;
      [|discriminate].
    destruct (cost_ltb _ _); [|eapply IH; eauto].
    eapply IH; [exact Hrest| |exact Hrun].
    apply forallb_dict_set; [|exact Hrt]. simpl.
    apply nn_add; [|exact Hnc].
    exact (forallb_dict_get _ _ _ _ Hnb Hlink).
Qed.

Lemma nonneg_get net k node :
  nonneg net = true -> dict_get k net = Some node -> nonneg_node node = true.
Proof.
  intros Hnet Hk. exact (forallb_dict_get _ _ _ _ Hnet Hk).
Qed.

Lemma nonneg_visit n net u m net' u' :
  nonneg net = true -> visit n (net, u) m = Ok (net', u') -> nonneg net' = true.
Proof.
  intros Hnet H. apply visit_cases in H as [[= -> ->]|H]; [exact Hnet|].
  destruct H as (node & nb & rt' & uu & Hn & Hm & Hloop & [= -> ->]).
  apply forallb_dict_set; [|exact Hnet]. simpl.
  pose proof (nonneg_get _ _ _ Hnet Hn) as Hnode.
  pose proof (nonneg_get _ _ _ Hnet Hm) as Hnbnode.
  apply andb_true_iff in Hnode as [H1 H2].
  apply andb_true_iff in Hnbnode as [_ H3].
  unfold nonneg_node. simpl. rewrite H1. simpl.
  exact (updateRoutingTable_loop_nonneg node m (routingTable nb) H1 H3
           _ _ _ _ H2 Hloop).
Qed.

Lemma nonneg_simulateIteration net net' updated :
  nonneg net = true ->
  simulateIteration net = Ok (net', updated) ->
  nonneg net' = true.
Proof.
  rewrite simulateIteration_schedule. intros Hnet Hrun.
  apply (foldM_preserves visit_pair (fun s => nonneg (fst s) = true)
           (schedule net)) with (s := (net, false)) (s' := (net', updated));
    auto.
  intros [net1 u1] [n m] [net2 u2] _ H1 Hv. simpl in *.
  eapply nonneg_visit; eauto.
Qed.

Lemma nonneg_connect_node m c node :
  nn c = true -> nonneg_node node = true ->
  nonneg_node (connect_node m c node) = true.
Proof.
  intros Hc H. apply andb_true_iff in H as [H1 H2].
  unfold nonneg_node. simpl. apply andb_true_iff.
  split; apply forallb_dict_set; auto.
Qed.

Lemma nonneg_disconnect m node :
  nonneg_node node = true -> nonneg_node (disconnectNeighbor node m) = true.
Proof.
  intros H. unfold disconnectNeighbor.
  destruct (dict_mem m (neighbors node)); [|exact H].
  apply andb_true_iff in H as [H1 H2].
  unfold nonneg_node. simpl. apply andb_true_iff.
  split; apply forallb_dict_set; auto.
Qed.

Lemma nonneg_modify net k (f : Node -> Node) :
  (forall node, nonneg_node node = true -> nonneg_node (f node) = true) ->
  nonneg net = true -> nonneg (dict_modify k f net) = true.
Proof.
  intros Hf Hnet. unfold dict_modify.
  destruct (dict_get k net) as [node|] eqn:Hk; [|exact Hnet].
  apply forallb_dict_set; [|exact Hnet]. simpl.
  apply Hf. eapply nonneg_get; eauto.
Qed.

Lemma nonneg_route_cost net k d :
  nonneg net = true -> nn (route_cost net k d) = true.
Proof.
  intros Hnet. unfold route_cost, route.
  destruct (dict_get k net) as [node|] eqn:Hk; [|reflexivity].
  destruct (dict_get d (routingTable node)) as [[c h]|] eqn:Hd;
    [|reflexivity].
  apply nonneg_get with (k := k) (node := node) in Hnet; [|exact Hk].
  apply andb_true_iff in Hnet as [_ H2].
  exact (forallb_dict_get _ _ _ _ H2 Hd).
Qed.

(** X15.  When every cost handed to [connectNodes] is non-negative (or
    infinite), no sequence of calls ever records a negative cost: in every
    network reached, every route cost and every neighbour cost is
    non-negative or infinite. *)
Theorem costs_stay_nonnegative (ops : list op) (net : Network) :
  Forall nonneg_op ops ->
  run_ops ops = Ok net ->
  (forall k d, nn (route_cost net k d) = true) /\
  (forall k m c, neighbor_cost net k m = Some c -> nn c = true).
Proof.
  intros Hops Hrun.
  assert (Hnet : nonneg net = true).
  { apply (apply_op_invariant (fun net => nonneg net = true)
             (fun c => nn c = true)) with (ops := ops); auto.
    - intros net0 nm H0. unfold addNode. now apply forallb_dict_set.
    - intros net0 a b c Hc H0. rewrite connectNodes_normal.
      destruct (dict_mem a net0 && dict_mem b net0); [|exact H0].
      repeat apply nonneg_modify; auto;
        intros node; now apply nonneg_connect_node.
    - intros net0 n m [net1 u1] H0 Hv. eapply nonneg_visit; eauto.
    - intros net0 a node m H0 Ha. apply forallb_dict_set; [|exact H0].
      simpl. apply nonneg_disconnect. eapply nonneg_get; eauto. }
  split.
  - intros k d. now apply nonneg_route_cost.
  - intros k m c. unfold neighbor_cost.
    destruct (dict_get k net) as [node|] eqn:Hk; [|discriminate].
    intros Hm. apply nonneg_get with (k := k) (node := node) in Hnet;
      [|exact Hk].
    apply andb_true_iff in Hnet as [H1 _].
    exact (forallb_dict_get _ _ _ _ H1 Hm).
Qed.

Lemma costs_stay_nonnegative_witness :
  nn (route_cost driver_network "A" "C") = true.
Proof.
  apply (costs_stay_nonnegative
           [AddNode "A"; AddNode "B"; AddNode "C";
            ConnectNodes "A" "B" (Fin 1); ConnectNodes "B" "C" (Fin 1);
            ConnectNodes "A" "C" (Fin 4)] driver_network).
  - repeat constructor.
  - reflexivity.
Defined.

(** ** A dead link teaches nothing *)

Lemma neighbor_cost_same_shape net net' k m :
  same_shape net net' -> neighbor_cost net' k m = neighbor_cost net k m.
Proof.
  intros Hshape. specialize (Hshape k). unfold neighbor_cost.
  destruct (dict_get k net) as [node|], (dict_get k net') as [node'|];
    try discriminate; [|reflexivity].
  injection Hshape as _ Hnb. now rewrite Hnb.
Qed.

Lemma visit_dead_link a b n net u m net' u' :
  neighbor_cost net a b = Some Inf ->
  visit n (net, u) m = Ok (net', u') ->
  forall d c,
    route net' a d = Some (c, Some b) -> route net a d = Some (c, Some b).
Proof.
  intros Hdead H d c. apply visit_cases in H as [[= -> ->]|H]; [auto|].
  destruct H as (node & nb & rt' & uu & Hn & Hm & Hloop & [= -> ->]).
  unfold route. rewrite dict_get_set.
  destruct (String.eqb_spec a n) as [->|]; [|auto].
  rewrite Hn. simpl. intros Hd.
  unfold neighbor_cost in Hdead. rewrite Hn in Hdead.
  destruct (string_dec m b) as [->|Hne].
  - rewrite (updateRoutingTable_loop_dead node b _ Hdead) in Hloop.
    now injection Hloop as <- _.
  - destruct (updateRoutingTable_loop_hop _ _ _ _ _ _ _ Hloop d _ Hd)
      as [Hold|[Hh _]]; [exact Hold|].
    simpl in Hh. congruence.
Qed.

(** X16.  While node [a] records an infinite cost for neighbour [b] (as
    after [simulateFailure(a, b)]), a round never gives [a] a route
    through [b]: every entry of [a] whose next hop is [b] after the round
    was there, unchanged, before it. *)
Theorem no_new_route_over_dead_link (net net' : Network) (updated : bool)
    (a b : string) :
  neighbor_cost net a b = Some Inf ->
  simulateIteration net = Ok (net', updated) ->
  forall d c,
    route net' a d = Some (c, Some b) -> route net a d = Some (c, Some b).
Proof.
  intros Hdead Hrun. rewrite simulateIteration_schedule in Hrun.
  apply (foldM_preserves visit_pair
           (fun s => neighbor_cost (fst s) a b = Some Inf /\
                     forall d c, route (fst s) a d = Some (c, Some b) ->
                                 route net a d = Some (c, Some b))
           (schedule net)) with (s := (net, false)) (s' := (net', updated));
    auto.
  intros [net1 u1] [n m] [net2 u2] _ [Hd1 H1] Hv. simpl in *. split.
  - rewrite (neighbor_cost_same_shape net1 net2); [exact Hd1|].
    eapply visit_same_shape; eauto.
  - intros d c Hd. apply H1. eapply visit_dead_link; eauto.
Qed.

Lemma no_new_route_over_dead_link_witness :
  exists net',
    simulateIteration driver_after_failure = Ok (net', true) /\
    route net' "A" "C" = Some (Fin 2, Some "B") /\
    route driver_after_failure "A" "C" = Some (Fin 2, Some "B").
Proof.
  eexists. split; [reflexivity|]. split; [reflexivity|].
  eapply (no_new_route_over_dead_link driver_after_failure); reflexivity.
Defined.

(** ** The driver loop: what it reports *)

Lemma converge_from_report cap :
  forall used net,
  exists net' k b,
    converge_from cap used net = Ok (net', (used + k)%nat, b) /\
    (k <= cap)%nat /\
    run_rounds k net = Ok net' /\
    (b = true -> (1 <= k)%nat /\ simulateIteration net' = Ok (net', false)) /\
    (b = false -> k = cap) /\
    (forall j net_j,
        (if b then S j < k else j < k)%nat ->
        run_rounds j net = Ok net_j ->
        exists net_j', simulateIteration net_j = Ok (net_j', true)).
Proof.
  induction cap as [|cap IH]; intros used net.
  - exists net, 0%nat, false. simpl. rewrite Nat.add_0_r.
    repeat split; auto; try discriminate. intros j net_j Hj. lia.
  - destruct (simulateIteration_total net) as (net1 & u & Hround).
    simpl. rewrite Hround. simpl. destruct u.
    + destruct (IH (S used) net1)
        as (net' & k & b & Hrun & Hle & Hrounds & Htrue & Hfalse & Hbefore).
      exists net', (S k), b.
      replace (used + S k)%nat with (S used + k)%nat by lia.
      split; [exact Hrun|]. split; [lia|]. split.
      { simpl. rewrite Hround. simpl. exact Hrounds. }
      split.
      { intros Hb. destruct (Htrue Hb). split; [lia|assumption]. }
      split; [intros Hb; rewrite (Hfalse Hb); reflexivity|].
      intros [|j] net_j Hj Hj_run.
      * simpl in Hj_run. injection Hj_run as <-. now exists net1.
      * simpl in Hj_run. rewrite Hround in Hj_run. simpl in Hj_run.
        apply (Hbefore j net_j); [|exact Hj_run].
        destruct b; lia.
    + pose proof (simulateIteration_false _ _ Hround) as ->.
      exists net, 1%nat, true.
      replace (used + 1)%nat with (S used) by lia.
      split; [reflexivity|]. split; [lia|]. split.
      { simpl. now rewrite Hround. }
      split; [intros _; split; [lia|exact Hround]|].
      split; [discriminate|]. intros j net_j Hj. lia.
Qed.


(** ** Rounds always reach a fixpoint *)

Lemma filter_length_le {A} (f g : A -> bool) l :
  (forall x, In x l -> f x = true -> g x = true) ->
  (length (filter f l) <= length (filter g l))%nat.
Proof.
  induction l as [|a l IH]; intros H; simpl; [lia|].
  assert (IH' := IH (fun x Hx => H x (or_intror Hx))).
  destruct (f a) eqn:Hf.
  - rewrite (H a (or_introl eq_refl) Hf). simpl. lia.
  - destruct (g a); simpl; lia.
Qed.

Lemma filter_length_eq {A} (f g : A -> bool) l :
  (forall x, In x l -> f x = true -> g x = true) ->
  length (filter f l) = length (filter g l) ->
  forall x, In x l -> g x = true -> f x = true.
Proof.
  induction l as [|a l IH]; intros H Hlen x Hx Hg; [contradiction|].
  assert (Hle := filter_length_le f g l (fun y Hy => H y (or_intror Hy))).
  simpl in Hlen. destruct (f a) eqn:Hf.
  - rewrite (H a (or_introl eq_refl) Hf) in Hlen. simpl in Hlen.
    destruct Hx as [<-|Hx]; [exact Hf|].
    apply IH; auto. intros y Hy. apply H. now right.
  - destruct (g a) eqn:Hga; simpl in Hlen; [lia|].
    destruct Hx as [<-|Hx]; [congruence|].
    apply IH; auto. intros y Hy. apply H. now right.
Qed.

Lemma list_sum_map_le {A} (f g : A -> nat) l :
  (forall x, In x l -> (f x <= g x)%nat) ->
  (list_sum (map f l) <= list_sum (map g l))%nat.
Proof.
  induction l as [|a l IH]; intros H; simpl; [lia|].
  assert (Ha := H a (or_introl eq_refl)).
  assert (IH' := IH (fun x Hx => H x (or_intror Hx))). lia.
Qed.

Lemma list_sum_map_lt {A} (f g : A -> nat) l x :
  (forall y, In y l -> (f y <= g y)%nat) ->
  In x l -> (f x < g x)%nat ->
  (list_sum (map f l) < list_sum (map g l))%nat.
Proof.
  induction l as [|a l IH]; intros H Hx Hlt; [contradiction|]. simpl.
  assert (Ha := H a (or_introl eq_refl)).
  assert (Hl := list_sum_map_le f g l (fun y Hy => H y (or_intror Hy))).
  destruct Hx as [->|Hx]; [lia|].
  assert (IH' := IH (fun y Hy => H y (or_intror Hy)) Hx Hlt). lia.
Qed.

Lemma within_init net : within (keys net) (all_destinations net) net.
Proof.
  intros k node Hk. split; [eapply dict_get_Some_keys; eauto|].
  intros d Hd. unfold all_destinations. apply in_flat_map.
  exists (k, node). split; [now apply dict_get_In|exact Hd].
Qed.

Lemma within_visit N D n net u m net' u' :
  within N D net -> visit n (net, u) m = Ok (net', u') -> within N D net'.
Proof.
  intros Hin H. apply visit_cases in H as [[= -> ->]|H]; [exact Hin|].
  destruct H as (node & nb & rt' & uu & Hn & Hm & Hloop & [= -> ->]).
  intros k node'. rewrite dict_get_set.
  destruct (String.eqb_spec k n) as [->|]; [|apply Hin].
  intros [= <-]. destruct (Hin n node Hn) as [HN HD].
  destruct (Hin m nb Hm) as [_ HDnb].
  split; [exact HN|]. simpl.
  apply updateRoutingTable_loop_keys in Hloop as (added & Hk & Hadd).
  rewrite Hk. intros d Hd. apply in_app_or in Hd as [Hd|Hd]; [now apply HD|].
  apply HDnb. now apply Hadd.
Qed.

Lemma within_simulateIteration N D net net' updated :
  within N D net -> simulateIteration net = Ok (net', updated) ->
  within N D net'.
Proof.
  rewrite simulateIteration_schedule. intros Hin Hrun.
  apply (foldM_preserves visit_pair (fun s => within N D (fst s))
           (schedule net)) with (s := (net, false)) (s' := (net', updated));
    auto.
  intros [net1 u1] [n m] [net2 u2] _ H1 Hv. simpl in *.
  eapply within_visit; eauto.
Qed.

Lemma within_finite N D net k d :
  within N D net -> is_inf (route_cost net k d) = false ->
  In (k, d) (list_prod N D).
Proof.
  intros Hin Hfin. unfold route_cost, route in Hfin.
  destruct (dict_get k net) as [node|] eqn:Hk; [|discriminate].
  destruct (dict_get d (routingTable node)) as [e|] eqn:Hd; [|discriminate].
  destruct (Hin k node Hk) as [HN HD].
  apply in_prod; [exact HN|]. apply HD. eapply dict_get_Some_keys; eauto.
Qed.

(** A round that returns [True] lowers the measure. *)
Lemma round_lowers_measure N D net net' :
  within N D net -> nonneg net = true ->
  simulateIteration net = Ok (net', true) ->
  (count_inf (list_prod N D) net' < count_inf (list_prod N D) net)%nat \/
  (count_inf (list_prod N D) net' = count_inf (list_prod N D) net /\
   finite_sum (list_prod N D) net' < finite_sum (list_prod N D) net)%nat.
Proof.
  intros Hin Hnn Hrun.
  pose proof (simulateIteration_costs_le _ _ _ Hrun) as Hle.
  pose proof (nonneg_simulateIteration _ _ _ Hnn Hrun) as Hnn'.
  pose proof (within_simulateIteration _ _ _ _ _ Hin Hrun) as Hin'.
  destruct (simulateIteration_true _ _ Hrun) as (k & d & Hlt).
  set (P := list_prod N D).
  assert (Hmono : forall p, In p P ->
             is_inf (route_cost net' (fst p) (snd p)) = true ->
             is_inf (route_cost net (fst p) (snd p)) = true).
  { intros p _. specialize (Hle (fst p) (snd p)).
    destruct (route_cost net' (fst p) (snd p)); [discriminate|].
    now destruct (route_cost net (fst p) (snd p)). }
  pose proof (filter_length_le _ _ P Hmono) as Hcount.
  fold (count_inf P net') in Hcount. fold (count_inf P net) in Hcount.
  destruct (Nat.eq_dec (count_inf P net') (count_inf P net)) as [Heq|Hne];
    [right|left; lia].
  split; [exact Heq|].
  pose proof (filter_length_eq _ _ P Hmono Heq) as Hback.
  assert (HkP : In (k, d) P).
  { apply (within_finite N D net'); [exact Hin'|].
    unfold cost_lt in Hlt. now destruct (route_cost net' k d). }
  apply (list_sum_map_lt _ _ P (k, d)); [|exact HkP|].
  - intros p Hp. pose proof (Hle (fst p) (snd p)) as Hp_le.
    pose proof (Hback p Hp) as Hp_back. cbv beta in Hp_back.
    revert Hp_le Hp_back.
    destruct (route_cost net' (fst p) (snd p)) as [z'|],
             (route_cost net (fst p) (snd p)) as [z|]; simpl;
      intros Hp_le Hp_back; try lia; try contradiction;
      try (specialize (Hp_back eq_refl); discriminate).
  - simpl. pose proof (nonneg_route_cost net' k d Hnn') as Hz.
    pose proof (Hback (k, d) HkP) as Hb. cbv beta in Hb. simpl in Hb.
    unfold cost_lt in Hlt. revert Hz Hb Hlt.
    destruct (route_cost net' k d) as [z'|], (route_cost net k d) as [z|];
      simpl; intros Hz Hb Hlt; try discriminate.
    + apply Z.ltb_lt in Hlt. apply Z.leb_le in Hz. lia.
    + specialize (Hb eq_refl). discriminate.
Qed.

Lemma rounds_reach_fixpoint N D :
  forall a b net,
    within N D net -> nonneg net = true ->
    count_inf (list_prod N D) net = a ->
    finite_sum (list_prod N D) net = b ->
    exists j net_j,
      run_rounds j net = Ok net_j /\
      simulateIteration net_j = Ok (net_j, false).
Proof.
  induction a as [a IHa] using lt_wf_ind.
  induction b as [b IHb] using lt_wf_ind.
  intros net Hin Hnn Ha Hb.
  destruct (simulateIteration_total net) as (net1 & u & Hround).
  destruct u.
  - assert (Hnext : exists j net_j,
               run_rounds j net1 = Ok net_j /\
               simulateIteration net_j = Ok (net_j, false)).
    { pose proof (nonneg_simulateIteration _ _ _ Hnn Hround) as Hnn1.
      pose proof (within_simulateIteration _ _ _ _ _ Hin Hround) as Hin1.
      destruct (round_lowers_measure N D net net1 Hin Hnn Hround)
        as [Hlt|[Heq Hlt]].
      - eapply (IHa (count_inf (list_prod N D) net1)); eauto. lia.
      - eapply (IHb (finite_sum (list_prod N D) net1)); eauto; lia. }
    destruct Hnext as (j & net_j & Hrun & Hfix).
    exists (S j), net_j. split; [|exact Hfix].
    simpl. rewrite Hround. simpl. exact Hrun.
  - pose proof (simulateIteration_false _ _ Hround) as ->.
    exists 0%nat, net. split; [reflexivity|exact Hround].
Qed.



(** ** Console and log output *)

Lemma append_assoc (a b c : string) :
  ((a ++ b) ++ c)%string = (a ++ (b ++ c))%string.
Proof. induction a as [|x a IH]; simpl; [reflexivity|]. now rewrite IH. Qed.

Lemma append_empty_r (a : string) : (a ++ "")%string = a.
Proof. induction a as [|x a IH]; simpl; [reflexivity|]. now rewrite IH. Qed.

Lemma length_append (a b : string) :
  String.length (a ++ b)%string = (String.length a + String.length b)%nat.
Proof. induction a as [|x a IH]; simpl; [reflexivity|]. now rewrite IH. Qed.

Lemma length_repeat_char (x : ascii) n :
  String.length (repeat_string (String x "") n) = n.
Proof. induction n as [|n IH]; simpl; [reflexivity|]. now rewrite IH. Qed.

Lemma length_ljust width s :
  String.length (ljust width s) = Nat.max width (String.length s).
Proof.
  unfold ljust. rewrite length_append.
  change " "%string with (String " "%char "").
  rewrite length_repeat_char. lia.
Qed.

Lemma length_format_row a b c :
  String.length (format_row a b c) =
  (Nat.max 12 (String.length a) + Nat.max 10 (String.length b)
   + Nat.max 10 (String.length c) + 2)%nat.
Proof.
  unfold format_row. rewrite !length_append, !length_ljust. simpl. lia.
Qed.

Lemma table_row_printed net k node item :
  In (k, node) net -> In item (routingTable node) ->
  In (table_row item) (printRoutingTables net).
Proof.
  intros Hk Hitem. unfold printRoutingTables. apply in_flat_map.
  exists (k, node). split; [exact Hk|]. unfold print_node. simpl.
  do 3 right. apply in_or_app. left. now apply in_map.
Qed.



Lemma concat_empty_cons (x : string) xs :
  String.concat "" (x :: xs) = (x ++ String.concat "" xs)%string.
Proof. destruct xs; simpl; [now rewrite append_empty_r|reflexivity]. Qed.

Lemma concat_empty_app xs ys :
  String.concat "" (xs ++ ys)
  = (String.concat "" xs ++ String.concat "" ys)%string.
Proof.
  induction xs as [|x xs IH]; [reflexivity|].
  change ((x :: xs) ++ ys) with (x :: (xs ++ ys)).
  now rewrite !concat_empty_cons, IH, append_assoc.
Qed.

Lemma log_node_print_node k node :
  log_node k node
  = String.concat "" (map (fun l => (l ++ nl)%string) (print_node k node)).
Proof.
  unfold log_node, print_node.
  rewrite !map_app, map_map. cbn [map app].
  rewrite !concat_empty_cons, concat_empty_app, !concat_empty_cons.
  cbn [String.concat]. rewrite append_empty_r, !append_assoc. reflexivity.
Qed.

(** X20.  The log shows the tables exactly as the console does: the table
    part of a log entry is the lines that [printRoutingTables] prints for
    the same network, in the same order, each followed by a newline. *)
Theorem log_matches_print (net : Network) :
  log_tables net
  = String.concat "" (map (fun l => (l ++ nl)%string) (printRoutingTables net)).
Proof.
  unfold log_tables, printRoutingTables.
  induction net as [|[k node] net IH]; [reflexivity|].
  cbn [map flat_map fst snd].
  rewrite map_app, concat_empty_app, concat_empty_cons, IH.
  now rewrite log_node_print_node.
Qed.


(** X22.  A failed link is shown as such: after [disconnectNeighbor] of a
    neighbour the node knows, the table printed for the node has the row
    of that neighbour with cost [inf] and next hop [N/A]. *)
Theorem disconnected_neighbor_printed (net : Network) (k m : string)
    (node : Node) :
  dict_mem m (neighbors node) = true ->
  In (k, disconnectNeighbor node m) net ->
  In (format_row m "inf" "N/A") (printRoutingTables net).
Proof.
  intros Hm Hk.
  apply (table_row_printed net k (disconnectNeighbor node m)
           (m, (Inf, None))); [exact Hk|].
  unfold disconnectNeighbor. rewrite Hm. simpl.
  apply dict_get_In. apply dict_get_set_eq.
Qed.

Lemma disconnected_neighbor_printed_witness :
  In "B            inf        N/A       "%string
     (printRoutingTables
        [("A", disconnectNeighbor
                 (mkNode "A" [("A", (Fin 0, Some "A")); ("B", (Fin 1, Some "B"))]
                         [("B", Fin 1)]) "B")]).
Proof.
  apply (disconnected_neighbor_printed _ "A" "B"
           (mkNode "A" [("A", (Fin 0, Some "A")); ("B", (Fin 1, Some "B"))]
                   [("B", Fin 1)])).
  - reflexivity.
  - left. reflexivity.
Defined.

(** ** The state after construction, and the self-entry *)

(** X23.  Every network built by [addNode] calls followed by
    [connectNodes] calls whose two ends differ and whose costs are not
    negative has unique node ids, each node stored under its own name with
    neighbours that are nodes, and routing tables that hold exactly the
    self-entry [(0, self)] and, for every neighbour, the direct entry
    [(cost, neighbour)]. *)
Theorem built_network_well_built (names : list string)
    (links : list (string * string * Z)) :
  Forall good_link links -> well_built (build names links).
Proof. apply build_well_built. Qed.

Lemma built_network_well_built_witness : well_built driver_network.
Proof.
  apply (built_network_well_built ["A"; "B"; "C"]
           [("A", "B", 1%Z); ("B", "C", 1%Z); ("A", "C", 4%Z)]).
  repeat constructor; simpl; discriminate || lia.
Defined.

(** X24.  Apart from a link from a node to itself, no call touches a
    self-entry: in every network reached by a sequence of calls in which
    [connectNodes] is never given the same id twice, every node [n] has
    [routingTable[n] = (0, n)]. *)
Theorem self_route_kept (ops : list op) (net : Network) :
  Forall no_self_link ops ->
  run_ops ops = Ok net ->
  forall n node,
    dict_get n net = Some node ->
    dict_get n (routingTable node) = Some (Fin 0%Z, Some n).
Proof. apply self_route_without_self_links. Qed.

Lemma self_route_kept_witness :
  route driver_after_failure "A" "A" = Some (Fin 0, Some "A").
Proof.
  unfold route.
  destruct (dict_get "A" driver_after_failure) as [node|] eqn:Hn;
    [|discriminate Hn].
  apply (self_route_kept
           [AddNode "A"; AddNode "B"; AddNode "C";
            ConnectNodes "A" "B" (Fin 1); ConnectNodes "B" "C" (Fin 1);
            ConnectNodes "A" "C" (Fin 4); SimulateIteration; SimulateIteration;
            SimulateFailure "A" "B"] driver_after_failure).
  - repeat constructor; simpl; discriminate.
  - reflexivity.
  - exact Hn.
Defined.
